(** * ciphers.py: a Vigenere cipher and a block affine cipher

    A shallow embedding of [src/ciphers.py] (Python 2) and the properties
    of its two cipher classes.  Text is a Python 2 [str], that is a
    sequence of bytes; the objects are records and a method is a function
    from the object to the object it leaves behind together with the
    exception it raised, if any. *)

From Stdlib Require Import ZArith Ascii String.
From stdpp Require Import base tactics option list sorting strings gmap.

Local Open Scope Z_scope.

(** ** Python values and exceptions *)

Module Py.

(** A [str] of Python 2: a sequence of bytes.  A one-character string is
    an [ascii]. *)
Abbreviation str := (list ascii).

Definition lit (s : string) : str := list_ascii_of_string s.

(** The exceptions the two classes can raise. *)
Inductive exn : Type :=
  | ZeroDivisionError
  | ValueError
  | IndexError
  | Exception (msg : string).

Inductive result (A : Type) : Type :=
  | Ok (a : A)
  | Raise (e : exn).
Arguments Ok {A} a.
Arguments Raise {A} e.

Definition bind {A B} (m : result A) (k : A → result B) : result B :=
  match m with
  | Ok a => k a
  | Raise e => Raise e
  end.

(** [raise Exception("...")] is the only exception the source raises on
    purpose; the others come from the interpreter. *)
Definition deliberate (e : exn) : bool :=
  match e with
  | Exception _ => true
  | _ => false
  end.

Definition code (c : ascii) : N := N_of_ascii c.

(** *** Character classes

    [\W] under [re.UNICODE] on a byte string: a byte is a word character
    when, read as a code point, it is alphanumeric or the underscore. *)
Definition between (lo hi : N) (c : ascii) : bool :=
  ((lo <=? code c) && (code c <=? hi))%N.

Definition is_upper (c : ascii) : bool := between 65 90 c.
Definition is_lower (c : ascii) : bool := between 97 122 c.
Definition is_digit (c : ascii) : bool := between 48 57 c.
Definition is_underscore (c : ascii) : bool := (code c =? 95)%N.

(** The alphanumeric code points of the upper half of the byte range. *)
Definition is_high_alnum (c : ascii) : bool :=
  (code c =? 170)%N || between 178 179 c || (code c =? 181)%N
  || between 185 186 c || between 188 190 c
  || between 192 214 c || between 216 246 c || between 248 255 c.

Definition is_word (c : ascii) : bool :=
  is_upper c || is_lower c || is_digit c || is_underscore c
  || is_high_alnum c.

(** [re.sub(r"\W+", "", s, flags=re.UNICODE)]: every maximal run of
    non-word characters is replaced by the empty string. *)
Definition strip_nonword (s : str) : str := List.filter is_word s.

(** [s.upper()] on a byte string (C locale): a-z go to A-Z. *)
Definition upper_char (c : ascii) : ascii :=
  if is_lower c then ascii_of_N (code c - 32) else c.

Definition upper (s : str) : str := upper_char <$> s.

(** *** Arithmetic *)

(** [a % m]: floored remainder, [ZeroDivisionError] on [m = 0]. *)
Definition mod_ (a m : Z) : result Z :=
  if decide (m = 0) then Raise ZeroDivisionError else Ok (a `mod` m).

(** [fractions.gcd(a, b)]: [while b: a, b = b, a%b] then [return a].  The
    remainder's absolute value drops at every turn, so [S (|b|)] turns
    are enough. *)
Fixpoint gcd_loop (fuel : nat) (a b : Z) : option Z :=
  match fuel with
  | O => None
  | S fuel' => if decide (b = 0) then Some a else gcd_loop fuel' b (a `mod` b)
  end.

Definition gcd (a b : Z) : Z :=
  default 0 (gcd_loop (S (Z.abs_nat b)) a b).

(** *** Sequences *)

(** [range(lo, hi)] *)
Definition range (lo hi : Z) : list Z :=
  (λ k, lo + Z.of_nat k) <$> seq 0 (Z.to_nat (hi - lo)).

(** [l[i]] with Python's negative indices. *)
Definition getitem {A} (l : list A) (i : Z) : result A :=
  let n := Z.of_nat (length l) in
  let j := if decide (i < 0) then i + n else i in
  if decide (0 ≤ j < n) then
    match l !! Z.to_nat j with
    | Some x => Ok x
    | None => Raise IndexError
    end
  else Raise IndexError.

(** [l[i] = x] for an index in range. *)
Definition setitem {A} (l : list A) (i : nat) (x : A) : result (list A) :=
  if decide (i < length l)%nat then Ok (<[i:=x]> l) else Raise IndexError.

(** A slice bound, clamped as Python does. *)
Definition clamp (n : nat) (i : Z) : nat :=
  let len := Z.of_nat n in
  Z.to_nat (if decide (i < 0) then Z.max 0 (i + len) else Z.min i len).

(** [l[i:]] and [l[:i]] *)
Definition slice_from {A} (i : Z) (l : list A) : list A :=
  drop (clamp (length l) i) l.
Definition slice_to {A} (i : Z) (l : list A) : list A :=
  take (clamp (length l) i) l.

(** [l.index(x)]: the first position of [x], or [ValueError]. *)
Fixpoint index_from `{EqDecision A} (i : nat) (x : A) (l : list A) : result nat :=
  match l with
  | [] => Raise ValueError
  | y :: l' => if decide (y = x) then Ok i else index_from (S i) x l'
  end.
Definition index `{EqDecision A} (l : list A) (x : A) : result nat :=
  index_from 0 x l.

(** [s.find(ch)]: the first position of [ch], or [-1]. *)
Definition find (s : str) (ch : ascii) : Z :=
  match index s ch with
  | Ok i => Z.of_nat i
  | Raise _ => -1
  end.

(** ["".join(l)] *)
Definition join (l : list str) : str := concat l.

(** *** Loops: [for i, x in enumerate(l): body], threading the state the
    body updates and stopping at the first exception. *)
Fixpoint for_from {A S} (body : nat → A → S → result S)
    (i : nat) (l : list A) (s : S) : result S :=
  match l with
  | [] => Ok s
  | x :: l' => bind (body i x s) (for_from body (Datatypes.S i) l')
  end.
Definition for_enumerate {A S} (l : list A) (s : S)
    (body : nat → A → S → result S) : result S :=
  for_from body 0 l s.

(** *** Comparison of strings: bytewise, a proper prefix comes first. *)
Fixpoint str_ltb (s t : str) : bool :=
  match s, t with
  | _, [] => false
  | [], _ :: _ => true
  | a :: s', b :: t' =>
      if (code a <? code b)%N then true
      else if (code a =? code b)%N then str_ltb s' t'
      else false
  end.

Definition str_le (s t : str) : Prop := str_ltb t s = false.

#[global] Instance str_le_dec : RelDecision str_le.
Proof. intros s t. unfold str_le. apply _. Defined.

(** [l.sort()] on a list of strings. *)
Definition sort (l : list str) : list str := merge_sort str_le l.

End Py.

Declare Scope py_scope.
Delimit Scope py_scope with py.
Notation "'let!' x ':=' m 'in' k" := (Py.bind m (λ x, k))
  (at level 10, x name, m at level 100, k at level 200) : py_scope.
Local Open Scope py_scope.

Import Py.

(** ** Files

    The files the program reads and writes: the contents by name, and the
    names that cannot be opened for writing. *)

Module Os.

Record filesystem : Type := mk {
  files : gmap string (list ascii);
  denied : gset string
}.

(** What ends a run: [open] failing, or an exception of the ciphers that
    nothing catches. *)
Inductive failure : Type :=
  | IOError (filename : string)
  | Uncaught (e : exn).

Inductive io_result (A : Type) : Type :=
  | Done (a : A)
  | Failed (f : failure).
Arguments Done {A} a.
Arguments Failed {A} f.

(** [with open(filename) as f: f.read()] *)
Definition read (fs : filesystem) (filename : string) : io_result str :=
  match files fs !! filename with
  | Some content => Done content
  | None => Failed (IOError filename)
  end.

(** [with open(filename, 'w') as f: f.write(content)] *)
Definition write (fs : filesystem) (filename : string) (content : str)
    : io_result filesystem :=
  if decide (filename ∈ denied fs) then Failed (IOError filename)
  else Done {| files := <[filename := content]> (files fs);
               denied := denied fs |}.

(** A piece of the program: it runs on the files and leaves them in some
    state, with a value or a failure. *)
Definition prog (A : Type) : Type := filesystem → filesystem * io_result A.

Definition ret {A} (a : A) : prog A := λ fs, (fs, Done a).

Definition bind {A B} (m : prog A) (k : A → prog B) : prog B :=
  λ fs, match m fs with
        | (fs', Done a) => k a fs'
        | (fs', Failed f) => (fs', Failed f)
        end.

Definition read_prog (filename : string) : prog str :=
  λ fs, (fs, read fs filename).

(** A method call on an object, its exception left uncaught. *)
Definition call {S} (o : S * option exn) : prog S :=
  λ fs, match o with
        | (s, None) => (fs, Done s)
        | (_, Some e) => (fs, Failed (Uncaught e))
        end.

End Os.

Notation "'do!' x ':=' m 'in' k" := (Os.bind m (λ x, k))
  (at level 10, x name, m at level 100, k at level 200) : py_scope.

(** A method call leaves the object in some state and either returns or
    raises. *)
Definition outcome (S : Type) : Type := S * option exn.

(** [obj.m1(..).m2(..)]: the second call runs on what the first returned,
    and not at all when the first raised. *)
Definition and_then {S} (o : outcome S) (m : S → outcome S) : outcome S :=
  match o with
  | (s, None) => m s
  | (s, Some e) => (s, Some e)
  end.

(** The full uppercase alphabet *)
Definition u_alpha : str := lit "ABCDEFGHIJKLMNOPQRSTUVWXYZ".

(** The full upper and lowercased alphabet *)
Definition ul_alpha : str :=
  lit "ABCDEFGHIJKLMNOPQRSTUVWXYZabcdefghijklmnopqrstuvwxyz".

Definition alphabet (full : bool) : str := if full then ul_alpha else u_alpha.

(** What both constructors do to the raw text. *)
Definition normalize (full : bool) (plaintext : str) : str :=
  let text := strip_nonword plaintext in
  if negb full then upper text else text.

(** ** VIGENERE CIPHER *)

Module VigenereCipher.

Record t : Type := mk {
  full : bool;
  text : str;
  table : list (list ascii)
}.

Definition set_text (self : t) (s : str) : t :=
  {| full := full self; text := s; table := table self |}.

(** The loop of [__init__] replaces row [i] by [row[-i:] + row[:-i]]; it
    writes only the row it has just read, so it is an indexed map. *)
Definition rotate_rows (vtable : list str) : list str :=
  imap (λ i row,
          let back := slice_from (- Z.of_nat i) row in
          let front := slice_to (- Z.of_nat i) row in
          back ++ front) vtable.

Definition init (plaintext : str) (full : bool) : t :=
  let alpha : str := if full then ul_alpha else u_alpha in
  let vtable : list str := (λ _, alpha) <$> alpha in
  let vtable := rotate_rows vtable in
  let vtable := sort vtable in
  let text := strip_nonword plaintext in
  let text := if negb full then upper text else text in
  {| full := full; text := text;
     table := (λ l : str, (λ c, c) <$> l) <$> vtable |}.

Definition from_string (plaintext : str) (full : bool) : t :=
  init plaintext full.

(** Initialize from the contents of a file *)
Definition from_file (filename : string) (full : bool) : Os.prog t :=
  λ fs, match Os.read fs filename with
        | Os.Done content => (fs, Os.Done (init content full))
        | Os.Failed f => (fs, Os.Failed f)
        end.

(** Write the held text to a file *)
Definition save (self : t) (filename : string) : Os.prog bool :=
  λ fs, match Os.write fs filename (text self) with
        | Os.Done fs' => (fs', Os.Done true)
        | Os.Failed _ => (fs, Os.Done false)
        end.

(** Get the current form of the text *)
Definition __str__ (self : t) : str := text self.

(** Repeat the key to match the text length *)
Definition expand (self : t) (key : str) (length : Z) : result str :=
  let vkey := [] in
  let key := strip_nonword key in
  let key := if negb (full self) then upper key else key in
  for_enumerate (range 0 length) vkey (λ _ i vkey,
    let! i := mod_ i (Z.of_nat (List.length key)) in
    let! k := getitem key i in
    Ok (vkey ++ [k])).

(** One turn of the loop of [encrypt]. *)
Definition encrypt_step (self : t) (key : str)
    (i : nat) (c : ascii) (result : list str) : Py.result (list str) :=
  let! row0 := getitem (table self) 0 in
  let! ti := getitem (text self) (Z.of_nat i) in
  let! ci := index row0 ti in
  let ri := 0%nat in
  let! ri := for_enumerate (table self) ri (λ j l ri,
    let! l0 := getitem l 0 in
    let! ki := getitem key (Z.of_nat i) in
    Ok (if decide (l0 = ki) then j else ri)) in
  let! rowr := getitem (table self) (Z.of_nat ri) in
  let! x := getitem rowr (Z.of_nat ci) in
  setitem result i [x].

(** The body of [encrypt] up to the assignment to [self.text]. *)
Definition encrypt_text (self : t) (key : str) : result str :=
  let! key := expand self key (Z.of_nat (length (text self))) in
  let result := replicate (length (text self)) [] in
  let! result := for_enumerate (text self) result (encrypt_step self key) in
  Ok (join result).

(** Encrypt the held text *)
Definition encrypt (key : str) (self : t) : outcome t :=
  match encrypt_text self key with
  | Ok s => (set_text self s, None)
  | Raise e => (self, Some e)
  end.

(** One turn of the loop of [decrypt]. *)
Definition decrypt_step (self : t) (key : str)
    (i : nat) (c : ascii) (result : list str) : Py.result (list str) :=
  for_enumerate (table self) result (λ j l result,
    let! l0 := getitem l 0 in
    let! ki := getitem key (Z.of_nat i) in
    if decide (l0 = ki) then
      let! row0 := getitem (table self) 0 in
      let! rowj := getitem (table self) (Z.of_nat j) in
      let! k := index rowj c in
      let! x := getitem row0 (Z.of_nat k) in
      setitem result i [x]
    else Ok result).

Definition decrypt_text (self : t) (key : str) : result str :=
  let! key := expand self key (Z.of_nat (length (text self))) in
  let result := replicate (length (text self)) [] in
  let! result := for_enumerate (text self) result (decrypt_step self key) in
  Ok (join result).

(** Decrypt the held text *)
Definition decrypt (key : str) (self : t) : outcome t :=
  match decrypt_text self key with
  | Ok s => (set_text self s, None)
  | Raise e => (self, Some e)
  end.

End VigenereCipher.

(** ** BLOCK AFFINE CIPHER *)

Module BlockAffineCipher.

Record t : Type := mk {
  block : Z;
  modulo : Z;
  alpha : str;
  text : str
}.

Definition set_text (self : t) (s : str) : t :=
  {| block := block self; modulo := modulo self; alpha := alpha self;
     text := s |}.

(** [while (len(text) % block) > 0: text += 'A'].  With [block = 2] the
    guard fails after one turn at most; [fuel] bounds the turns. *)
Fixpoint pad (fuel : nat) (block : Z) (text : str) : str :=
  match fuel with
  | O => text
  | S fuel' =>
      if decide (Z.of_nat (length text) `mod` block > 0)
      then pad fuel' block (text ++ lit "A")
      else text
  end.

Definition init (plaintext : str) (modulo : Z) (full : bool) : t :=
  let block := 2 in
  let alpha := if full then ul_alpha else u_alpha in
  let text := strip_nonword plaintext in
  let text := if negb full then upper text else text in
  {| block := block; modulo := modulo; alpha := alpha;
     text := pad (Z.to_nat block) block text |}.

Definition from_string (plaintext : str) (mod_ : Z) (full : bool) : t :=
  init plaintext mod_ full.

(** Initialize from the contents of a file *)
Definition from_file (filename : string) (mod_ : Z) (full : bool) : Os.prog t :=
  λ fs, match Os.read fs filename with
        | Os.Done content => (fs, Os.Done (init content mod_ full))
        | Os.Failed f => (fs, Os.Failed f)
        end.

(** Write the held text to a file *)
Definition save (self : t) (filename : string) : Os.prog bool :=
  λ fs, match Os.write fs filename (text self) with
        | Os.Done fs' => (fs', Os.Done true)
        | Os.Failed _ => (fs, Os.Done false)
        end.

(** Get the current form of the text *)
Definition __str__ (self : t) : str := text self.

(** One turn of the loop of [encrypt]. *)
Definition encrypt_step (self : t) (keya keyb : Z)
    (i : nat) (ch : ascii) (result : list str) : Py.result (list str) :=
  let num := find (alpha self) ch in
  let! num := mod_ (keya * num + keyb) (modulo self) in
  let! x := getitem (alpha self) num in
  setitem result i [x].

Definition encrypt_text (self : t) (keya keyb : Z) : result str :=
  let result := (λ _, []) <$> text self in
  let! result := for_enumerate (text self) result (encrypt_step self keya keyb) in
  Ok (join result).

(** Encrypt the held text *)
Definition encrypt (keya keyb : Z) (self : t) : outcome t :=
  match encrypt_text self keya keyb with
  | Ok s => (set_text self s, None)
  | Raise e => (self, Some e)
  end.

Definition no_inverse : exn := Exception "Couldn't find a modulo inverse".

(** The loop of [get_inverse], which returns from inside. *)
Fixpoint search_inverse (a m : Z) (candidates : list Z) : result (option Z) :=
  match candidates with
  | [] => Ok None
  | i :: rest =>
      let! r := mod_ (a * i) m in
      if decide (r = 1) then Ok (Some i) else search_inverse a m rest
  end.

Definition get_inverse (a m : Z) : result Z :=
  let! found :=
    if decide (Py.gcd a m = 1) then search_inverse a m (range 1 m)
    else Ok None in
  match found with
  | Some i => Ok i
  | None => Raise no_inverse
  end.

(** One turn of the loop of [decrypt]. *)
Definition decrypt_step (self : t) (keya keyb : Z)
    (i : nat) (ch : ascii) (result : list str) : Py.result (list str) :=
  let num := find (alpha self) ch in
  let! mod_inv := get_inverse keya (modulo self) in
  let! num := mod_ (mod_inv * (num - keyb)) (modulo self) in
  let! x := getitem (alpha self) num in
  setitem result i [x].

Definition decrypt_text (self : t) (keya keyb : Z) : result str :=
  let result := (λ _, []) <$> text self in
  let! result := for_enumerate (text self) result (decrypt_step self keya keyb) in
  Ok (join result).

(** Decrypt the held text *)
Definition decrypt (keya keyb : Z) (self : t) : outcome t :=
  match decrypt_text self keya keyb with
  | Ok s => (set_text self s, None)
  | Raise e => (self, Some e)
  end.

End BlockAffineCipher.

Module V := VigenereCipher.
Module B := BlockAffineCipher.

(** ** The program

    The statements that follow the prompts, for the answers [full] (the
    large alphabet was chosen), [keya] and [keyb]. *)

Definition text : string := "plaintext.txt".
Definition vkey : string := "vcipherkey.txt".
Definition vout_enc : string := "vigenerecipheroutput.txt".
Definition bout_enc : string := "blockaffinecipheroutput.txt".
Definition vout_dec : string := "secondplaintextoutput.txt".
Definition bout_dec : string := "blockaffinecipherplaintextoutput.txt".

Definition main (full : bool) (keya keyb : Z) : Os.prog unit :=
  let mod_ := if full then 52 else 26 in
  (* Get key for Vigenere encryption *)
  do! vkey := Os.read_prog vkey in
  (* Perform Vigenere encryption *)
  do! vcipher := V.from_file text full in
  do! vcipher := Os.call (V.encrypt vkey vcipher) in
  do! _ := V.save vcipher vout_enc in
  (* Re-encrypt with Block Affine *)
  do! bfcipher :=
    Os.call (B.encrypt keya keyb
               (B.from_string (V.__str__ vcipher) mod_ full)) in
  do! _ := B.save bfcipher bout_enc in
  (* Decrypt with Block Affine *)
  do! bfcipher := Os.call (B.decrypt keya keyb bfcipher) in
  do! _ := B.save bfcipher bout_dec in
  (* Decrypt with Vigenere *)
  do! vcipher :=
    Os.call (V.decrypt vkey (V.from_string (B.__str__ bfcipher) full)) in
  do! _ := V.save vcipher vout_dec in
  Os.ret tt.

(** ** Notions used to state the properties *)

(** The word characters that belong to neither alphabet. *)
Definition other_word (c : ascii) : bool :=
  is_digit c || is_underscore c || is_high_alnum c.

(** The table [__init__] builds, as a function of the alphabet. *)
Definition tabula (alpha : str) : list (list ascii) :=
  (λ l : str, (λ c, c) <$> l) <$> sort (V.rotate_rows ((λ _, alpha) <$> alpha)).

(** The symbol [expand] puts at position [k] of its result. *)
Definition key_symbol (nkey : str) (k : nat) : result ascii :=
  let! i := mod_ (0 + Z.of_nat k) (Z.of_nat (length nkey)) in getitem nkey i.

(** The object holds the table its constructor built. *)
Definition built (self : V.t) : Prop :=
  V.table self = tabula (alphabet (V.full self)).

(** The row [encrypt] selects for a key symbol: the one that starts with
    it, row 0 when there is none. *)
Definition row_of (full : bool) (k : ascii) : nat :=
  match index (alphabet full) k with
  | Ok r => r
  | Raise _ => 0%nat
  end.

(** What [encrypt] writes for text symbol [c] under key symbol [k]. *)
Definition enc_sym (full : bool) (k c : ascii) : ascii :=
  match index (alphabet full) c with
  | Ok ci => default c (tabula (alphabet full) !! row_of full k ≫= (.!! ci))
  | Raise _ => c
  end.

(** What [decrypt] writes for text symbol [c] under key symbol [k]. *)
Definition dec_sym (full : bool) (k c : ascii) : ascii :=
  match tabula (alphabet full) !! row_of full k with
  | Some row =>
      match index row c with
      | Ok j => default c (alphabet full !! j)
      | Raise _ => c
      end
  | None => c
  end.

(** What [encrypt] writes for the symbol [ch]. *)
Definition affine_enc_sym (alpha : str) (m a b : Z) (ch : ascii) : ascii :=
  default ch (alpha !! Z.to_nat ((a * find alpha ch + b) `mod` m)).

(** What [decrypt] writes for the symbol [ch], given the inverse. *)
Definition affine_dec_sym (alpha : str) (m inv b : Z) (ch : ascii) : ascii :=
  default ch (alpha !! Z.to_nat ((inv * (find alpha ch - b)) `mod` m)).

(** The files after an attempt to write [content] to [filename]. *)
Definition saved (fs : Os.filesystem) (filename : string) (content : str)
    : Os.filesystem :=
  match Os.write fs filename content with
  | Os.Done fs' => fs'
  | Os.Failed _ => fs
  end.

(** A fact about every byte, settled byte by byte. *)
Ltac each_char c :=
  destruct c as [[] [] [] [] [] [] [] []]; vm_compute;
  try reflexivity; try congruence.

(** ** Facts about the Python primitives *)

Section primitives.
Context {A : Type}.
Implicit Types (l : list A) (x : A) (i k : nat).

Lemma getitem_lookup l i x :
  l !! i = Some x → getitem l (Z.of_nat i) = Ok x.
Proof.
  intros Hl. pose proof (lookup_lt_Some _ _ _ Hl) as Hlt.
  unfold getitem. cbv zeta.
  destruct (decide (Z.of_nat i < 0)) as [?|_]; [lia|].
  destruct (decide (0 ≤ Z.of_nat i < Z.of_nat (length l))) as [_|?]; [|lia].
  by rewrite Nat2Z.id, Hl.
Qed.

Lemma getitem_in_range l (z : Z) :
  0 ≤ z < Z.of_nat (length l) → ∃ x, getitem l z = Ok x ∧ l !! Z.to_nat z = Some x.
Proof.
  intros Hz. destruct (lookup_lt_is_Some_2 l (Z.to_nat z)) as [x Hx]; [lia|].
  exists x. split; [|done]. rewrite <-(Z2Nat.id z) by lia.
  by apply getitem_lookup.
Qed.

Lemma getitem_raise l (z : Z) e : getitem l z = Raise e → e = IndexError.
Proof.
  unfold getitem. cbv zeta. case_decide; [|congruence].
  destruct (l !! _); congruence.
Qed.

Lemma setitem_raise l i x e : setitem l i x = Raise e → e = IndexError.
Proof. unfold setitem. case_decide; congruence. Qed.

Lemma setitem_in_range (l : list A) i x :
  (i < length l)%nat → setitem l i x = Ok (<[i:=x]> l).
Proof. intros. unfold setitem. by rewrite decide_True. Qed.

Context `{EqDecision A}.

Lemma index_from_first i x l k :
  l !! k = Some x → (∀ j, (j < k)%nat → l !! j ≠ Some x) →
  index_from i x l = Ok (i + k)%nat.
Proof.
  revert i k. induction l as [|y l IH]; intros i k Hk Hfirst; [done|].
  simpl. destruct k as [|k]; simpl in Hk.
  - injection Hk as ->. rewrite decide_True by done. f_equal. lia.
  - rewrite decide_False.
    + rewrite (IH (S i) k Hk).
      * f_equal. lia.
      * intros j Hj. apply (Hfirst (S j)). lia.
    + intros ->. by apply (Hfirst 0%nat); [lia|].
Qed.

Lemma index_lookup l k x :
  NoDup l → l !! k = Some x → index l x = Ok k.
Proof.
  intros Hnd Hk. unfold index. rewrite (index_from_first 0 x l k); [done..|].
  intros j Hj Hjx. pose proof (NoDup_lookup _ _ _ _ Hnd Hjx Hk). lia.
Qed.

Lemma index_from_elem i x l :
  x ∈ l → ∃ k, index_from i x l = Ok (i + k)%nat ∧ l !! k = Some x.
Proof.
  revert i. induction l as [|y l IH]; intros i Hx; [by apply elem_of_nil in Hx|].
  simpl. case_decide as Hy.
  - subst y. exists 0%nat. split; [f_equal; lia|done].
  - apply elem_of_cons in Hx as [->|Hx]; [done|].
    destruct (IH (S i) Hx) as (k & Hk & Hlk). exists (S k).
    split; [|done]. rewrite Hk. f_equal. lia.
Qed.

Lemma index_elem l x :
  x ∈ l → ∃ k, index l x = Ok k ∧ l !! k = Some x.
Proof. intros Hx. apply (index_from_elem 0 x l Hx). Qed.

Lemma index_from_not_elem i x l :
  x ∉ l → index_from i x l = Raise ValueError.
Proof.
  revert i. induction l as [|y l IH]; intros i Hx; [done|].
  simpl. apply not_elem_of_cons in Hx as [Hy Hx].
  rewrite decide_False by done. by apply IH.
Qed.

End primitives.

Lemma find_lookup (s : str) (ch : ascii) k :
  NoDup s → s !! k = Some ch → find s ch = Z.of_nat k.
Proof. intros Hnd Hk. unfold find. by rewrite (index_lookup s k ch). Qed.

Lemma find_not_elem (s : str) (ch : ascii) :
  ch ∉ s → find s ch = -1.
Proof.
  intros Hch. unfold find, index. by rewrite index_from_not_elem.
Qed.

Lemma mod_raise a m e : mod_ a m = Raise e → e = ZeroDivisionError.
Proof. unfold mod_. case_decide; congruence. Qed.

(** *** Loops *)

Section loops.
Context {A S : Type}.
Implicit Types (body : nat → A → S → result S) (l : list A).

(** A loop that raises does so in one of its turns. *)
Lemma for_from_raise body i l s e :
  for_from body i l s = Raise e →
  ∃ j x s', l !! j = Some x ∧ body (i + j)%nat x s' = Raise e.
Proof.
  revert i s. induction l as [|x l IH]; intros i s; [done|].
  simpl. destruct (body i x s) as [s'|e'] eqn:Hb; simpl.
  - intros Hl. destruct (IH _ _ Hl) as (j & y & s'' & Hj & Hr).
    exists (Datatypes.S j), y, s''. split; [done|].
    by replace (i + Datatypes.S j)%nat with (Datatypes.S i + j)%nat by lia.
  - intros [= ->]. exists 0%nat, x, s. split; [done|].
    by rewrite Nat.add_0_r.
Qed.

(** A loop whose first turn raises. *)
Lemma for_enumerate_raise_first body x l s e :
  body 0%nat x s = Raise e → for_enumerate (x :: l) s body = Raise e.
Proof. intros Hb. unfold for_enumerate. simpl. by rewrite Hb. Qed.

End loops.

(** The loop [for i, x in enumerate(l): result[i] = h(i, x)] over a buffer
    as long as [l] fills it from left to right. *)
Lemma for_from_fill {A B} (body : nat → A → list B → result (list B))
    (h : nat → A → B) (l : list A) i (pre rest : list B) :
  length pre = i → length rest = length l →
  (∀ j x res, l !! j = Some x → length res = (i + length l)%nat →
     body (i + j)%nat x res = Ok (<[(i + j)%nat := h (i + j)%nat x]> res)) →
  for_from body i l (pre ++ rest) =
    Ok (pre ++ imap (λ j x, h (i + j)%nat x) l).
Proof.
  revert i pre rest. induction l as [|x l IH]; intros i pre rest Hpre Hrest Hb.
  - destruct rest; [done|done].
  - destruct rest as [|r rest]; [done|]. simpl in Hrest.
    simpl. rewrite <-(Nat.add_0_r i) at 1.
    rewrite (Hb 0%nat x (pre ++ r :: rest) eq_refl)
      by (rewrite length_app; simpl; lia).
    simpl. rewrite Nat.add_0_r.
    rewrite <-Hpre, insert_app_r_alt, Nat.sub_diag by lia. simpl.
    rewrite (cons_middle (h _ x) pre), app_assoc, Hpre.
    rewrite (IH (Datatypes.S i) (pre ++ [h i x]) rest).
    + rewrite <-app_assoc. simpl. do 3 f_equal.
      apply imap_ext. intros j y _. simpl. f_equal; lia.
    + rewrite length_app. simpl. lia.
    + lia.
    + intros j y res Hj Hres.
      replace (Datatypes.S i + j)%nat with (i + Datatypes.S j)%nat by lia.
      apply Hb; [done|]. simpl. lia.
Qed.

Lemma for_enumerate_fill {A B} (body : nat → A → list B → result (list B))
    (h : nat → A → B) (l : list A) (buf : list B) :
  length buf = length l →
  (∀ j x res, l !! j = Some x → length res = length l →
     body j x res = Ok (<[j := h j x]> res)) →
  for_enumerate l buf body = Ok (imap h l).
Proof.
  intros Hbuf Hb. unfold for_enumerate.
  apply (for_from_fill body h l 0 [] buf eq_refl Hbuf). exact Hb.
Qed.

(** ** Alphabets and normalization *)

Lemma u_alpha_spec c : bool_decide (c ∈ u_alpha) = is_upper c.
Proof. each_char c. Qed.

Lemma ul_alpha_spec c : bool_decide (c ∈ ul_alpha) = is_upper c || is_lower c.
Proof. each_char c. Qed.

Lemma alphabet_spec full c :
  c ∈ alphabet full ↔ is_upper c || full && is_lower c = true.
Proof.
  destruct full; simpl.
  - by rewrite <-ul_alpha_spec, bool_decide_eq_true.
  - by rewrite orb_false_r, <-u_alpha_spec, bool_decide_eq_true.
Qed.

Lemma is_word_cases c :
  is_word c = is_upper c || is_lower c || other_word c.
Proof.
  unfold is_word, other_word.
  by destruct (is_upper c), (is_lower c), (is_digit c), (is_underscore c).
Qed.

Lemma upper_char_upper c :
  is_upper (upper_char c) = is_upper c || is_lower c.
Proof. each_char c. Qed.

Lemma upper_char_other c : other_word (upper_char c) = other_word c.
Proof. each_char c. Qed.

Lemma NoDup_alphabet full : NoDup (alphabet full).
Proof. destruct full; apply (bool_decide_unpack _); by vm_compute. Qed.

Lemma alphabet_length full :
  length (alphabet full) = if full then 52%nat else 26%nat.
Proof. by destruct full. Qed.

Lemma elem_of_normalize full raw c :
  c ∈ normalize full raw →
  ∃ c0, c0 ∈ raw ∧ is_word c0 = true ∧
        c = if full then c0 else upper_char c0.
Proof.
  unfold normalize, strip_nonword, upper. destruct full; simpl.
  - rewrite list_elem_of_In, filter_In, <-list_elem_of_In.
    intros [Hin Hw]. by exists c.
  - rewrite list_elem_of_fmap. intros (c0 & -> & Hc0).
    rewrite list_elem_of_In, filter_In, <-list_elem_of_In in Hc0.
    destruct Hc0 as [Hin Hw]. by exists c0.
Qed.

(** Text over the alphabet is left alone by normalization. *)
Lemma normalize_alphabet full s :
  Forall (λ c, c ∈ alphabet full) s → normalize full s = s.
Proof.
  intros Hall. unfold normalize, strip_nonword, upper.
  assert (List.filter is_word s = s) as ->.
  { induction Hall as [|c s Hc _ IH]; [done|]. simpl.
    apply alphabet_spec in Hc. rewrite is_word_cases, IH.
    by destruct full, (is_upper c), (is_lower c). }
  destruct full; simpl; [done|].
  induction Hall as [|c s Hc _ IH]; [done|].
  rewrite fmap_cons, IH. f_equal.
  apply alphabet_spec in Hc. simpl in Hc. rewrite orb_false_r in Hc.
  unfold upper_char. replace (is_lower c) with false; [done|].
  revert Hc. each_char c.
Qed.

(** ** The substitution table *)

Lemma table_init plaintext full :
  V.table (V.init plaintext full) = tabula (alphabet full).
Proof. by destruct full. Qed.

Lemma text_init plaintext full :
  V.text (V.init plaintext full) = normalize full plaintext.
Proof. done. Qed.

Lemma rotation_Permutation (z : Z) (row : str) :
  slice_from z row ++ slice_to z row ≡ₚ row.
Proof.
  unfold slice_from, slice_to. rewrite Permutation_app_comm.
  by rewrite take_drop.
Qed.

Lemma rotate_rows_Permutation (alpha : str) (rows : list str) :
  Forall (λ row, row ≡ₚ alpha) rows →
  Forall (λ row, row ≡ₚ alpha) (V.rotate_rows rows).
Proof.
  intros Hall. unfold V.rotate_rows. apply Forall_forall. intros r Hr.
  apply elem_of_lookup_imap in Hr as (j & r0 & -> & Hj).
  rewrite rotation_Permutation.
  by apply (proj1 (Forall_lookup _ _) Hall j).
Qed.

(** [[ [c for c in l] for l in vtable ]] copies the rows. *)
Lemma copy_rows (rows : list str) :
  (λ l : str, (λ c, c) <$> l) <$> rows = rows.
Proof.
  induction rows as [|row rows IH]; [done|].
  rewrite fmap_cons, IH. f_equal. apply (list_fmap_id row).
Qed.

Lemma tabula_rows (alpha : str) :
  Forall (λ row, row ≡ₚ alpha) (tabula alpha).
Proof.
  unfold tabula, sort. rewrite copy_rows, merge_sort_Permutation.
  apply rotate_rows_Permutation, Forall_fmap, Forall_true. intros a. by simpl.
Qed.

Lemma tabula_length (alpha : str) : length (tabula alpha) = length alpha.
Proof.
  unfold tabula, sort, V.rotate_rows.
  by rewrite copy_rows, merge_sort_Permutation, length_imap, length_fmap.
Qed.

Lemma tabula_row0 full :
  tabula (alphabet full) !! 0%nat = Some (alphabet full).
Proof. destruct full; by vm_compute. Qed.

(** The first column, read down the rows, is the alphabet. *)
Lemma tabula_heads full :
  Forall2 (λ row a, row !! 0%nat = Some a)
          (tabula (alphabet full)) (alphabet full).
Proof. destruct full; apply (bool_decide_unpack _); by vm_compute. Qed.

Lemma tabula_row_lookup full r row :
  tabula (alphabet full) !! r = Some row →
  NoDup row ∧ length row = length (alphabet full) ∧
  ∀ c, c ∈ row ↔ c ∈ alphabet full.
Proof.
  intros Hr.
  assert (row ≡ₚ alphabet full) as Hp.
  { by apply (proj1 (Forall_lookup _ _) (tabula_rows (alphabet full)) r). }
  split; [|split].
  - rewrite Hp. apply NoDup_alphabet.
  - by rewrite Hp.
  - intros c. by rewrite Hp.
Qed.

(** ** Key expansion *)

Lemma for_from_append {A B} (body : nat → A → list B → result (list B))
    (g : A → result B) (l : list A) (ys : list B) :
  (∀ j x acc, body j x acc = let! y := g x in Ok (acc ++ [y])) →
  Forall2 (λ x y, g x = Ok y) l ys →
  ∀ i acc, for_from body i l acc = Ok (acc ++ ys).
Proof.
  intros Hb. induction 1 as [|x y l ys Hxy _ IH]; intros i acc; simpl.
  - by rewrite app_nil_r.
  - rewrite Hb, Hxy. simpl. rewrite IH. by rewrite <-app_assoc.
Qed.

Lemma expand_unfold self key (L : nat) :
  V.expand self key (Z.of_nat L) =
  for_from (λ _ i vkey,
      let! i := mod_ i (Z.of_nat (length (normalize (V.full self) key))) in
      let! k := getitem (normalize (V.full self) key) i in
      Ok (vkey ++ [k]))
    0 ((λ k, 0 + Z.of_nat k) <$> seq 0 L) [].
Proof.
  unfold V.expand, for_enumerate, range.
  by rewrite Z.sub_0_r, Nat2Z.id.
Qed.

Lemma key_symbol_lookup (nkey : str) (k : nat) :
  nkey ≠ [] →
  ∃ c, key_symbol nkey k = Ok c ∧
       nkey !! (k `mod` length nkey)%nat = Some c.
Proof.
  intros Hne. assert (length nkey ≠ 0%nat) as Hlen by by destruct nkey.
  unfold key_symbol, mod_. rewrite decide_False by lia. simpl.
  replace ((0 + Z.of_nat k) `mod` Z.of_nat (length nkey))
    with (Z.of_nat (k `mod` length nkey)) by (rewrite Nat2Z.inj_mod; f_equal; lia).
  destruct (lookup_lt_is_Some_2 nkey (k `mod` length nkey)) as [c Hc].
  { by apply Nat.mod_upper_bound. }
  exists c. split; [|done]. by apply getitem_lookup.
Qed.

Lemma expand_nonempty self key (L : nat) :
  normalize (V.full self) key ≠ [] →
  ∃ vkey, V.expand self key (Z.of_nat L) = Ok vkey ∧ length vkey = L ∧
    ∀ i, (i < L)%nat →
      vkey !! i = normalize (V.full self) key
                    !! (i `mod` length (normalize (V.full self) key))%nat.
Proof.
  intros Hne. rewrite expand_unfold.
  set (nkey := normalize (V.full self) key) in *.
  destruct nkey as [|c0 rest] eqn:Hnkey; [done|]. rewrite <-Hnkey in *.
  set (sym := λ k : nat, default c0 (nkey !! (k `mod` length nkey)%nat)).
  exists (sym <$> seq 0 L). split; [|split].
  - rewrite (for_from_append _ (λ z, let! i := mod_ z (Z.of_nat (length nkey)) in
                                      getitem nkey i) _ (sym <$> seq 0 L)).
    + done.
    + intros _ z acc. by destruct (mod_ z _) as [i|]; simpl.
    + apply Forall2_fmap, Forall_Forall2_diag, Forall_forall. intros k _.
      destruct (key_symbol_lookup nkey k Hne) as (c & Hc & Hlk).
      unfold key_symbol in Hc. rewrite Hc. unfold sym. by rewrite Hlk.
  - by rewrite length_fmap, length_seq.
  - intros i Hi. rewrite list_lookup_fmap, lookup_seq_lt by done. simpl.
    unfold sym. destruct (key_symbol_lookup nkey i Hne) as (c & _ & ->). done.
Qed.

(** With a key that normalizes to nothing, the first turn divides by
    zero; there is no first turn when the length is zero. *)
Lemma expand_empty self key (L : nat) :
  normalize (V.full self) key = [] →
  V.expand self key (Z.of_nat L) =
    match L with O => Ok [] | S _ => Raise ZeroDivisionError end.
Proof.
  intros Hnil. rewrite expand_unfold, Hnil. by destruct L.
Qed.

(** ** Looking a key symbol up in the first column *)

Section row_search.
Context {S : Type}.
Variable body : nat → list ascii → S → result S.
Variable act : nat → S → result S.
Variable k : ascii.
Hypothesis body_spec : ∀ j l s a,
  l !! 0%nat = Some a → body j l s = if decide (a = k) then act j s else Ok s.

(** No row begins with [k]: the loop leaves the state as it was. *)
Lemma row_search_absent rows heads :
  Forall2 (λ row a, row !! 0%nat = Some a) rows heads →
  k ∉ heads → ∀ i s, for_from body i rows s = Ok s.
Proof.
  induction 1 as [|row a rows heads Hrow _ IH]; intros Hk i s; [done|].
  apply not_elem_of_cons in Hk as [Hne Hk]. simpl.
  rewrite (body_spec _ _ _ a Hrow), decide_False by done. simpl. by apply IH.
Qed.

(** One row begins with [k]: the loop acts once, at that row. *)
Lemma row_search_present rows heads d :
  Forall2 (λ row a, row !! 0%nat = Some a) rows heads →
  NoDup heads → heads !! d = Some k →
  ∀ i s, for_from body i rows s = act (i + d)%nat s.
Proof.
  intros Hrows. revert d.
  induction Hrows as [|row a rows heads Hrow Hrows IH]; intros d Hnd Hd i s;
    [done|].
  apply NoDup_cons in Hnd as [Ha Hnd]. simpl.
  rewrite (body_spec _ _ _ a Hrow). destruct d as [|d]; simpl in Hd.
  - injection Hd as ->. rewrite decide_True, Nat.add_0_r by done.
    destruct (act i s) as [s'|e]; simpl; [|done].
    by apply (row_search_absent rows heads).
  - rewrite decide_False.
    + simpl. rewrite (IH d) by done. f_equal. lia.
    + intros ->. apply Ha. by eapply list_elem_of_lookup_2.
Qed.

End row_search.

(** ** The Vigenere transforms, symbol by symbol *)

Lemma built_init plaintext full : built (V.init plaintext full).
Proof. unfold built. by rewrite table_init. Qed.

Lemma row_of_lt full k : (row_of full k < length (alphabet full))%nat.
Proof.
  unfold row_of. destruct (decide (k ∈ alphabet full)) as [Hk|Hk].
  - destruct (index_elem _ _ Hk) as (r & -> & Hr). by eapply lookup_lt_Some.
  - unfold index. rewrite index_from_not_elem by done.
    destruct full; simpl; lia.
Qed.

Lemma row_of_lookup full k r :
  alphabet full !! r = Some k → row_of full k = r.
Proof.
  intros Hr. unfold row_of.
  by rewrite (index_lookup _ r k (NoDup_alphabet full) Hr).
Qed.

(** The cell [encrypt] reads exists and holds an alphabet symbol. *)
Lemma enc_cell full k c ci :
  alphabet full !! ci = Some c →
  ∃ row, tabula (alphabet full) !! row_of full k = Some row ∧
         row !! ci = Some (enc_sym full k c) ∧ NoDup row ∧
         enc_sym full k c ∈ alphabet full.
Proof.
  intros Hci.
  destruct (lookup_lt_is_Some_2 (tabula (alphabet full)) (row_of full k))
    as [row Hrow].
  { rewrite tabula_length. apply row_of_lt. }
  destruct (tabula_row_lookup full _ row Hrow) as (Hnd & Hlen & Hmem).
  destruct (lookup_lt_is_Some_2 row ci) as [x Hx].
  { rewrite Hlen. by eapply lookup_lt_Some. }
  assert (enc_sym full k c = x) as ->.
  { unfold enc_sym. rewrite (index_lookup _ ci c (NoDup_alphabet full) Hci).
    rewrite Hrow. simpl. by rewrite Hx. }
  exists row. repeat split; [done..|].
  apply Hmem. by eapply list_elem_of_lookup_2.
Qed.

Lemma dec_enc_sym full k c :
  c ∈ alphabet full → dec_sym full k (enc_sym full k c) = c.
Proof.
  intros Hc. apply list_elem_of_lookup_1 in Hc as [ci Hci].
  destruct (enc_cell full k c ci Hci) as (row & Hrow & Hx & Hnd & _).
  unfold dec_sym. rewrite Hrow, (index_lookup row ci _ Hnd Hx).
  by rewrite Hci.
Qed.

Lemma getitem_0 {A} (l : list A) x : l !! 0%nat = Some x → getitem l 0 = Ok x.
Proof. apply (getitem_lookup l 0%nat x). Qed.

Lemma join_imap_zip_with (f : ascii → ascii → ascii) (ekey l : str) :
  length ekey = length l →
  join (imap (λ j c, [f (default c (ekey !! j)) c]) l) = zip_with f ekey l.
Proof.
  revert ekey. induction l as [|c l IH]; intros [|k ekey] Hlen; try done.
  simpl. f_equal. rewrite <-IH by (simpl in Hlen; lia). done.
Qed.

Section vigenere_steps.
Variable self : V.t.
Hypothesis Hbuilt : built self.
Let full := V.full self.

(** The inner loop of [encrypt] finds the row of the key symbol. *)
Lemma encrypt_row key i k :
  key !! i = Some k →
  for_enumerate (V.table self) 0%nat (λ j l ri,
      let! l0 := getitem l 0 in
      let! ki := getitem key (Z.of_nat i) in
      Ok (if decide (l0 = ki) then j else ri)) = Ok (row_of full k).
Proof.
  intros Hk. unfold for_enumerate. rewrite Hbuilt. fold full.
  set (body := λ (j : nat) (l : list ascii) (ri : nat), _).
  assert (∀ j l s a, l !! 0%nat = Some a →
            body j l s = if decide (a = k) then Ok j else Ok s) as Hbody.
  { intros j l s a Ha. unfold body.
    rewrite (getitem_0 l a Ha), (getitem_lookup key i k Hk). simpl.
    by case_decide. }
  unfold row_of. destruct (decide (k ∈ alphabet full)) as [Hin|Hout].
  - destruct (index_elem _ _ Hin) as (r & Hidx & Hr). rewrite Hidx.
    rewrite (row_search_present body (λ j _, Ok j) k Hbody _ _ r
               (tabula_heads full) (NoDup_alphabet full) Hr). done.
  - unfold index. rewrite index_from_not_elem by done.
    by rewrite (row_search_absent body (λ j _, Ok j) k Hbody _ _
                  (tabula_heads full) Hout).
Qed.

Lemma encrypt_step_ok key i c res t k :
  V.text self !! i = Some t → t ∈ alphabet full → key !! i = Some k →
  (i < length res)%nat →
  V.encrypt_step self key i c res = Ok (<[i := [enc_sym full k t]]> res).
Proof.
  intros Ht Hin Hk Hi. unfold V.encrypt_step.
  rewrite (encrypt_row key i k Hk). rewrite Hbuilt. fold full.
  rewrite (getitem_0 _ _ (tabula_row0 full)). simpl.
  rewrite (getitem_lookup _ _ _ Ht). simpl.
  apply list_elem_of_lookup_1 in Hin as [ci Hci].
  rewrite (index_lookup _ ci t (NoDup_alphabet full) Hci). simpl.
  destruct (enc_cell full k t ci Hci) as (row & Hrow & Hx & _).
  rewrite (getitem_lookup _ _ _ Hrow). simpl.
  rewrite (getitem_lookup _ _ _ Hx). simpl.
  by apply setitem_in_range.
Qed.

Lemma decrypt_step_ok key i c res k :
  key !! i = Some k → k ∈ alphabet full → c ∈ alphabet full →
  (i < length res)%nat →
  V.decrypt_step self key i c res = Ok (<[i := [dec_sym full k c]]> res).
Proof.
  intros Hk Hkin Hcin Hi. unfold V.decrypt_step, for_enumerate.
  set (body := λ (j : nat) (l : list ascii) (result : list (list ascii)), _).
  set (act := λ (j : nat) (result : list (list ascii)),
      let! row0 := getitem (V.table self) 0 in
      let! rowj := getitem (V.table self) (Z.of_nat j) in
      let! k := index rowj c in
      let! x := getitem row0 (Z.of_nat k) in
      setitem result i [x]).
  assert (∀ j l s a, l !! 0%nat = Some a →
            body j l s = if decide (a = k) then act j s else Ok s) as Hbody.
  { intros j l s a Ha. unfold body.
    rewrite (getitem_0 l a Ha), (getitem_lookup key i k Hk). simpl.
    by case_decide. }
  apply list_elem_of_lookup_1 in Hkin as [r Hr].
  rewrite Hbuilt. fold full.
  rewrite (row_search_present body act k Hbody _ _ r
             (tabula_heads full) (NoDup_alphabet full) Hr).
  unfold act. simpl. rewrite Hbuilt. fold full.
  rewrite (getitem_0 _ _ (tabula_row0 full)). simpl.
  destruct (lookup_lt_is_Some_2 (tabula (alphabet full)) r) as [row Hrow].
  { rewrite tabula_length. by eapply lookup_lt_Some. }
  rewrite (getitem_lookup _ _ _ Hrow). simpl.
  destruct (tabula_row_lookup full r row Hrow) as (Hnd & Hlen & Hmem).
  apply Hmem in Hcin. destruct (index_elem row c Hcin) as (j & Hj & Hrj).
  rewrite Hj. simpl.
  destruct (lookup_lt_is_Some_2 (alphabet full) j) as [x Hx].
  { rewrite <-Hlen. by eapply lookup_lt_Some. }
  rewrite (getitem_lookup _ _ _ Hx). simpl.
  unfold dec_sym. rewrite (row_of_lookup full k r Hr), Hrow, Hj, Hx. simpl.
  by apply setitem_in_range.
Qed.

(** [encrypt] with the expanded key [ekey] in hand. *)
Lemma encrypt_loop_ok ekey :
  Forall (λ c, c ∈ alphabet full) (V.text self) →
  length ekey = length (V.text self) →
  (let! result := for_enumerate (V.text self)
                    (replicate (length (V.text self)) [])
                    (V.encrypt_step self ekey) in
   Ok (join result)) = Ok (zip_with (enc_sym full) ekey (V.text self)).
Proof.
  intros Hall Hlen.
  rewrite (for_enumerate_fill _
             (λ j c, [enc_sym full (default c (ekey !! j)) c])).
  - simpl. by rewrite join_imap_zip_with.
  - by rewrite length_replicate.
  - intros j c res Hj Hres.
    destruct (lookup_lt_is_Some_2 ekey j) as [k Hk].
    { rewrite Hlen. by eapply lookup_lt_Some. }
    rewrite Hk. simpl. apply encrypt_step_ok; [done| |done|].
    + by apply (proj1 (Forall_lookup _ _) Hall j).
    + rewrite Hres. by eapply lookup_lt_Some.
Qed.

Lemma decrypt_loop_ok ekey :
  Forall (λ c, c ∈ alphabet full) (V.text self) →
  Forall (λ k, k ∈ alphabet full) ekey →
  length ekey = length (V.text self) →
  (let! result := for_enumerate (V.text self)
                    (replicate (length (V.text self)) [])
                    (V.decrypt_step self ekey) in
   Ok (join result)) = Ok (zip_with (dec_sym full) ekey (V.text self)).
Proof.
  intros Hall Hkey Hlen.
  rewrite (for_enumerate_fill _
             (λ j c, [dec_sym full (default c (ekey !! j)) c])).
  - simpl. by rewrite join_imap_zip_with.
  - by rewrite length_replicate.
  - intros j c res Hj Hres.
    destruct (lookup_lt_is_Some_2 ekey j) as [k Hk].
    { rewrite Hlen. by eapply lookup_lt_Some. }
    rewrite Hk. simpl. apply decrypt_step_ok; [done| | |].
    + by apply (proj1 (Forall_lookup _ _) Hkey j).
    + by apply (proj1 (Forall_lookup _ _) Hall j).
    + rewrite Hres. by eapply lookup_lt_Some.
Qed.

End vigenere_steps.

(** ** The Vigenere methods *)

Lemma expand_symbols self key (L : nat) :
  normalize (V.full self) key ≠ [] →
  ∃ ekey, V.expand self key (Z.of_nat L) = Ok ekey ∧ length ekey = L ∧
          Forall (λ k, k ∈ normalize (V.full self) key) ekey.
Proof.
  intros Hne. destruct (expand_nonempty self key L Hne) as (ekey & He & Hlen & Hsym).
  exists ekey. repeat split; [done..|].
  apply Forall_lookup. intros i k Hi.
  rewrite Hsym in Hi by (rewrite <-Hlen; by eapply lookup_lt_Some).
  by eapply list_elem_of_lookup_2.
Qed.

Lemma encrypt_ok self key :
  built self →
  Forall (λ c, c ∈ alphabet (V.full self)) (V.text self) →
  normalize (V.full self) key ≠ [] →
  ∃ ekey, V.expand self key (Z.of_nat (length (V.text self))) = Ok ekey ∧
    V.encrypt key self =
      (V.set_text self (zip_with (enc_sym (V.full self)) ekey (V.text self)),
       None).
Proof.
  intros Hb Hall Hne.
  destruct (expand_symbols self key (length (V.text self)) Hne)
    as (ekey & He & Hlen & _).
  exists ekey. split; [done|]. unfold V.encrypt, V.encrypt_text.
  rewrite He. simpl. by rewrite (encrypt_loop_ok self Hb ekey Hall Hlen).
Qed.

Lemma decrypt_ok self key :
  built self →
  Forall (λ c, c ∈ alphabet (V.full self)) (V.text self) →
  normalize (V.full self) key ≠ [] →
  Forall (λ k, k ∈ alphabet (V.full self)) (normalize (V.full self) key) →
  ∃ ekey, V.expand self key (Z.of_nat (length (V.text self))) = Ok ekey ∧
    V.decrypt key self =
      (V.set_text self (zip_with (dec_sym (V.full self)) ekey (V.text self)),
       None).
Proof.
  intros Hb Hall Hne Hkey.
  destruct (expand_symbols self key (length (V.text self)) Hne)
    as (ekey & He & Hlen & Hsym).
  exists ekey. split; [done|]. unfold V.decrypt, V.decrypt_text.
  rewrite He. simpl. rewrite (decrypt_loop_ok self Hb ekey Hall); [done| |done].
  eapply Forall_impl; [exact Hsym|]. intros k Hk. simpl in Hk.
  by apply (proj1 (Forall_forall _ _) Hkey).
Qed.

Lemma zip_with_enc_alphabet full (ekey s : str) :
  Forall (λ c, c ∈ alphabet full) s →
  Forall (λ c, c ∈ alphabet full) (zip_with (enc_sym full) ekey s).
Proof.
  intros Hall. revert ekey.
  induction Hall as [|c s Hc _ IH]; intros [|k ekey]; try constructor.
  - apply list_elem_of_lookup_1 in Hc as [ci Hci].
    by destruct (enc_cell full k c ci Hci) as (_ & _ & _ & _ & ?).
  - apply IH.
Qed.

Lemma zip_with_dec_enc full (ekey s : str) :
  Forall (λ c, c ∈ alphabet full) s → length ekey = length s →
  zip_with (dec_sym full) ekey (zip_with (enc_sym full) ekey s) = s.
Proof.
  intros Hall. revert ekey.
  induction Hall as [|c s Hc _ IH]; intros [|k ekey] Hlen; try done.
  simpl. rewrite dec_enc_sym by done. f_equal. apply IH. simpl in Hlen. lia.
Qed.

(** ** The greatest common divisor and the modular inverse *)

(** The loop of [fractions.gcd] always has turns to spare. *)
Lemma gcd_loop_total fuel a b :
  Z.abs b < Z.of_nat fuel → is_Some (gcd_loop fuel a b).
Proof.
  revert a b. induction fuel as [|fuel IH]; intros a b Hb; [lia|].
  simpl. case_decide as Hz; [by eexists|]. apply IH.
  destruct (Z.lt_total b 0) as [Hneg|[?|Hpos]]; [|done|].
  - pose proof (Z.mod_neg_bound a b Hneg). lia.
  - pose proof (Z.mod_pos_bound a b Hpos). lia.
Qed.

Lemma gcd_loop_nonneg fuel a b :
  0 ≤ a → 0 ≤ b → b < Z.of_nat fuel → gcd_loop fuel a b = Some (Z.gcd a b).
Proof.
  revert a b. induction fuel as [|fuel IH]; intros a b Ha Hb Hfuel; [lia|].
  simpl. case_decide as Hz.
  - subst b. by rewrite Z.gcd_0_r_nonneg.
  - pose proof (Z.mod_pos_bound a b ltac:(lia)).
    rewrite IH by lia. by rewrite Z.gcd_comm, Z.gcd_mod, Z.gcd_comm.
Qed.

Lemma gcd_returns a b : gcd_loop (S (Z.abs_nat b)) a b = Some (Py.gcd a b).
Proof.
  unfold Py.gcd. destruct (gcd_loop_total (S (Z.abs_nat b)) a b) as [g Hg]; [lia|].
  by rewrite Hg.
Qed.

(** For a positive modulus [fractions.gcd] is the mathematical one. *)
Lemma gcd_positive a m : 0 < m → Py.gcd a m = Z.gcd a m.
Proof.
  intros Hm. unfold Py.gcd. simpl. rewrite decide_False by lia.
  pose proof (Z.mod_pos_bound a m Hm).
  rewrite gcd_loop_nonneg by lia. simpl.
  by rewrite Z.gcd_comm, Z.gcd_mod, Z.gcd_comm by lia.
Qed.

Lemma elem_of_range lo hi z : z ∈ range lo hi ↔ lo ≤ z < hi.
Proof.
  unfold range. rewrite list_elem_of_fmap. split.
  - intros (k & -> & Hk). apply elem_of_seq in Hk. lia.
  - intros Hz. exists (Z.to_nat (z - lo)). split; [lia|].
    apply elem_of_seq. lia.
Qed.

Lemma search_inverse_found a m candidates i :
  m ≠ 0 → i ∈ candidates → (a * i) `mod` m = 1 →
  ∃ j, B.search_inverse a m candidates = Ok (Some j) ∧
       j ∈ candidates ∧ (a * j) `mod` m = 1.
Proof.
  intros Hm. induction candidates as [|c rest IH]; intros Hi Hinv.
  - by apply elem_of_nil in Hi.
  - simpl. unfold mod_. rewrite decide_False by done. simpl.
    case_decide as Hc.
    + exists c. split; [done|]. split; [left|done].
    + apply elem_of_cons in Hi as [->|Hi]; [done|].
      destruct (IH Hi Hinv) as (j & Hj & Hjin & Hjinv).
      exists j. split; [done|]. split; [by right|done].
Qed.

Lemma inverse_exists a m :
  2 ≤ m → Z.gcd a m = 1 → ∃ i, 1 ≤ i < m ∧ (a * i) `mod` m = 1.
Proof.
  intros Hm Hg. destruct (Z.gcd_bezout a m 1 Hg) as (u & v & Huv).
  assert ((a * (u `mod` m)) `mod` m = 1) as Hinv.
  { rewrite Z.mul_mod_idemp_r by lia.
    replace (a * u) with (1 + (- v) * m) by lia.
    rewrite Z.mod_add by lia. apply Z.mod_small. lia. }
  exists (u `mod` m). split; [|done].
  pose proof (Z.mod_pos_bound u m ltac:(lia)).
  destruct (decide (u `mod` m = 0)) as [Hz|]; [|lia].
  rewrite Hz, Z.mul_0_r, Z.mod_0_l in Hinv by lia. lia.
Qed.

Lemma get_inverse_coprime a m :
  2 ≤ m → Z.gcd a m = 1 →
  ∃ i, B.get_inverse a m = Ok i ∧ 1 ≤ i < m ∧ (a * i) `mod` m = 1.
Proof.
  intros Hm Hg. destruct (inverse_exists a m Hm Hg) as (i & Hi & Hinv).
  destruct (search_inverse_found a m (range 1 m) i) as (j & Hj & Hjin & Hjinv);
    [lia|by apply elem_of_range|done|].
  exists j. unfold B.get_inverse.
  rewrite gcd_positive, decide_True, Hj by (done || lia). simpl.
  split; [done|]. split; [by apply elem_of_range|done].
Qed.

Lemma get_inverse_not_coprime a m :
  0 < m → Z.gcd a m ≠ 1 → B.get_inverse a m = Raise B.no_inverse.
Proof.
  intros Hm Hg. unfold B.get_inverse.
  by rewrite gcd_positive, decide_False by done.
Qed.


(** Undoing the affine map on an index. *)
Lemma affine_inverse_index a b inv m n :
  0 ≤ n < m → (a * inv) `mod` m = 1 →
  (inv * ((a * n + b) `mod` m - b)) `mod` m = n.
Proof.
  intros Hn Hinv.
  rewrite <-Z.mul_mod_idemp_r, Zminus_mod_idemp_l, Z.mul_mod_idemp_r by lia.
  replace (inv * (a * n + b - b)) with ((a * inv) * n) by lia.
  rewrite <-Z.mul_mod_idemp_l, Hinv, Z.mul_1_l by lia.
  apply Z.mod_small. lia.
Qed.

(** ** The affine transforms, symbol by symbol *)

Lemma join_imap_fmap {A} (f : A → ascii) (l : list A) :
  join (imap (λ _ c, [f c]) l) = f <$> l.
Proof. induction l as [|c l IH]; [done|]. simpl. f_equal. exact IH. Qed.

(** An index reduced by the modulus names an alphabet symbol as long as
    the modulus does not exceed the alphabet. *)
Lemma getitem_mod (alpha : str) (m z : Z) :
  1 ≤ m ≤ Z.of_nat (length alpha) →
  ∃ x, mod_ z m = Ok (z `mod` m) ∧ getitem alpha (z `mod` m) = Ok x ∧
       alpha !! Z.to_nat (z `mod` m) = Some x ∧ x ∈ alpha.
Proof.
  intros Hm. pose proof (Z.mod_pos_bound z m ltac:(lia)).
  destruct (getitem_in_range alpha (z `mod` m)) as (x & Hx & Hlk); [lia|].
  exists x. unfold mod_. rewrite decide_False by lia.
  repeat split; [done..|]. by eapply list_elem_of_lookup_2.
Qed.

Section affine_steps.
Variable self : B.t.
Let alpha := B.alpha self.
Let m := B.modulo self.
Hypothesis Hm : 1 ≤ m ≤ Z.of_nat (length alpha).

Lemma affine_encrypt_step_ok a b i ch res :
  (i < length res)%nat →
  B.encrypt_step self a b i ch res =
    Ok (<[i := [affine_enc_sym alpha m a b ch]]> res).
Proof.
  intros Hi. unfold B.encrypt_step, affine_enc_sym. fold alpha m.
  destruct (getitem_mod alpha m (a * find alpha ch + b) Hm)
    as (x & -> & Hx & -> & _).
  simpl. rewrite Hx. simpl. by apply setitem_in_range.
Qed.

Lemma affine_encrypt_text_ok a b :
  B.encrypt_text self a b = Ok (affine_enc_sym alpha m a b <$> B.text self).
Proof.
  unfold B.encrypt_text.
  rewrite (for_enumerate_fill _ (λ _ ch, [affine_enc_sym alpha m a b ch])).
  - simpl. by rewrite join_imap_fmap.
  - by rewrite length_fmap.
  - intros j ch res Hj Hres. apply affine_encrypt_step_ok.
    rewrite Hres. by eapply lookup_lt_Some.
Qed.

Lemma affine_decrypt_text_ok a b inv :
  B.get_inverse a m = Ok inv →
  B.decrypt_text self a b = Ok (affine_dec_sym alpha m inv b <$> B.text self).
Proof.
  intros Hinv. unfold B.decrypt_text.
  rewrite (for_enumerate_fill _ (λ _ ch, [affine_dec_sym alpha m inv b ch])).
  - simpl. by rewrite join_imap_fmap.
  - by rewrite length_fmap.
  - intros j ch res Hj Hres. unfold B.decrypt_step, affine_dec_sym.
    fold alpha m. rewrite Hinv. simpl.
    destruct (getitem_mod alpha m (inv * (find alpha ch - b)) Hm)
      as (x & -> & Hx & -> & _).
    simpl. rewrite Hx. simpl. apply setitem_in_range.
    rewrite Hres. by eapply lookup_lt_Some.
Qed.

Lemma affine_enc_sym_elem a b ch : affine_enc_sym alpha m a b ch ∈ alpha.
Proof.
  unfold affine_enc_sym.
  by destruct (getitem_mod alpha m (a * find alpha ch + b) Hm)
    as (x & _ & _ & -> & ?).
Qed.

Lemma affine_dec_sym_elem inv b ch : affine_dec_sym alpha m inv b ch ∈ alpha.
Proof.
  unfold affine_dec_sym.
  by destruct (getitem_mod alpha m (inv * (find alpha ch - b)) Hm)
    as (x & _ & _ & -> & ?).
Qed.

End affine_steps.

(** Without an inverse, [decrypt] raises in its first turn, if it has one. *)
Lemma affine_decrypt_step_raise self a b e ch res :
  B.get_inverse a (B.modulo self) = Raise e →
  B.decrypt_step self a b 0 ch res = Raise e.
Proof. intros Hinv. unfold B.decrypt_step. by rewrite Hinv. Qed.

Lemma affine_decrypt_raise self a b e :
  B.get_inverse a (B.modulo self) = Raise e → B.text self ≠ [] →
  B.decrypt a b self = (self, Some e).
Proof.
  intros Hinv Hne. unfold B.decrypt, B.decrypt_text.
  destruct (B.text self) as [|ch rest]; [done|].
  by rewrite (for_enumerate_raise_first _ ch rest _ e)
    by by apply affine_decrypt_step_raise.
Qed.

Lemma affine_decrypt_empty self a b :
  B.text self = [] → B.decrypt a b self = (self, None).
Proof.
  intros Hnil. unfold B.decrypt, B.decrypt_text. rewrite Hnil. simpl.
  destruct self. simpl in *. by subst.
Qed.

(** With an inverse in hand, no turn of [decrypt] raises the exception of
    [get_inverse]. *)
Lemma affine_decrypt_not_no_inverse self a b inv :
  B.get_inverse a (B.modulo self) = Ok inv →
  snd (B.decrypt a b self) ≠ Some B.no_inverse.
Proof.
  intros Hinv. unfold B.decrypt, B.decrypt_text.
  destruct (for_enumerate _ _ _) as [res|e] eqn:Hloop; simpl; [done|].
  apply for_from_raise in Hloop as (j & ch & res & _ & Hstep).
  unfold B.decrypt_step in Hstep. rewrite Hinv in Hstep. simpl in Hstep.
  intros [= ->].
  destruct (mod_ _ _) as [num|e] eqn:Hmod; simpl in Hstep.
  - destruct (getitem _ _) as [x|e] eqn:Hget; simpl in Hstep.
    + by apply setitem_raise in Hstep.
    + injection Hstep as ->. by apply getitem_raise in Hget.
  - injection Hstep as ->. by apply mod_raise in Hmod.
Qed.

(** ** Properties of the Vigenere cipher *)

(** The classic example: "ATTACKATDAWN" under the key "LEMON". *)
Example attack_at_dawn :
  V.text (fst (V.encrypt (lit "LEMON") (V.init (lit "Attack at dawn!") false)))
    = lit "LXFOPVEFRNHR".
Proof. by vm_compute. Qed.

Lemma expand_set_text self s key L :
  V.expand (V.set_text self s) key L = V.expand self key L.
Proof. done. Qed.

(** C1, as amended.  For every text [T] whose symbols all belong to the
    active alphabet and every key [K] whose normalization is non-empty and
    made of alphabet symbols only, constructing a VigenereCipher from [T],
    then calling [encrypt(K)] followed by [decrypt(K)], raises nothing and
    leaves the held text equal to [T]. *)
Theorem vigenere_round_trip (full : bool) (T K : str) :
  Forall (λ c, c ∈ alphabet full) T →
  normalize full K ≠ [] →
  Forall (λ k, k ∈ alphabet full) (normalize full K) →
  ∃ self', and_then (V.encrypt K (V.init T full)) (V.decrypt K) = (self', None)
           ∧ V.text self' = T.
Proof.
  intros HT Hne HK. set (self := V.init T full).
  assert (V.text self = T) as Htext.
  { unfold self. rewrite text_init. by apply normalize_alphabet. }
  assert (built self) as Hb by apply built_init.
  assert (V.full self = full) as Hfull by done.
  destruct (encrypt_ok self K Hb) as (ekey & He & Henc);
    [by rewrite ?Htext, ?Hfull..|].
  rewrite Henc. unfold and_then. rewrite Hfull, Htext in *.
  set (self1 := V.set_text self (zip_with (enc_sym full) ekey T)).
  destruct (expand_symbols self K (length T)) as (ekey' & He' & Hlen & _);
    [by rewrite Hfull|].
  rewrite He in He'. injection He' as <-.
  destruct (decrypt_ok self1 K) as (ekey1 & He1 & Hdec);
    [done|by apply zip_with_enc_alphabet|done..|].
  simpl in He1. rewrite length_zip_with, Hlen, Nat.min_id in He1.
  unfold self1 in He1. rewrite expand_set_text, He in He1.
  injection He1 as <-. rewrite Hdec. eexists. split; [done|]. simpl.
  by apply zip_with_dec_enc.
Qed.

Lemma vigenere_round_trip_witness :
  ∃ self',
    and_then (V.encrypt (lit "LEMON") (V.init (lit "ATTACKATDAWN") false))
             (V.decrypt (lit "LEMON")) = (self', None)
    ∧ V.text self' = lit "ATTACKATDAWN".
Proof.
  apply (vigenere_round_trip false (lit "ATTACKATDAWN") (lit "LEMON")).
  - apply (bool_decide_unpack _). vm_compute. exact I.
  - vm_compute. discriminate.
  - apply (bool_decide_unpack _). vm_compute. exact I.
Defined.

(** C1, as stated, fails.  A digit is kept by normalization and makes
    [encrypt] raise [ValueError]; a key of punctuation is non-empty and
    makes [encrypt] raise [ZeroDivisionError]; a key holding a digit makes
    the round trip return the empty text. *)
Lemma vigenere_round_trip_counterexample :
  (normalize false (lit "A1") = lit "A1" ∧
   V.encrypt (lit "A") (V.init (lit "A1") false)
     = (V.init (lit "A1") false, Some ValueError)) ∧
  (lit "!" ≠ [] ∧
   V.encrypt (lit "!") (V.init (lit "A") false)
     = (V.init (lit "A") false, Some ZeroDivisionError)) ∧
  (normalize false (lit "1") = lit "1" ∧
   V.text (fst (and_then (V.encrypt (lit "1") (V.init (lit "A") false))
                         (V.decrypt (lit "1")))) = [] ∧
   V.text (V.init (lit "A") false) = lit "A").
Proof. repeat split; vm_compute; congruence. Qed.

(** C4.  For either alphabet mode, the table the constructor builds has as
    many rows as the alphabet has symbols, every row is as long as the
    alphabet and is a permutation of it, and row 0 is the alphabet in its
    original order. *)
Theorem table_invariant (full : bool) (plaintext : str) :
  let table := V.table (V.init plaintext full) in
  length table = length (alphabet full) ∧
  Forall (λ row, length row = length (alphabet full)) table ∧
  Forall (λ row, row ≡ₚ alphabet full) table ∧
  table !! 0%nat = Some (alphabet full).
Proof.
  cbv zeta. rewrite table_init. split; [apply tabula_length|].
  split; [|split; [apply tabula_rows|apply tabula_row0]].
  eapply Forall_impl; [apply tabula_rows|]. intros row Hrow. simpl in Hrow.
  by rewrite Hrow.
Qed.

(** C5.  For every key whose normalization is non-empty and every length
    [L], [expand] returns a string of length [L] whose [i]-th symbol is the
    normalized key's symbol at position [i mod len]; expanding "AB" to
    length 5 over the restricted alphabet yields "ABABA". *)
Theorem expand_cycles_key (self : V.t) (key : str) (L : nat) :
  normalize (V.full self) key ≠ [] →
  (∃ vkey, V.expand self key (Z.of_nat L) = Ok vkey ∧ length vkey = L ∧
     ∀ i, (i < L)%nat →
       vkey !! i = normalize (V.full self) key
                     !! (i `mod` length (normalize (V.full self) key))%nat) ∧
  V.expand (V.init [] false) (lit "AB") 5 = Ok (lit "ABABA").
Proof. intros Hne. split; [by apply expand_nonempty|done]. Qed.

Lemma expand_cycles_key_witness :
  (∃ vkey, V.expand (V.init [] true) (lit "Le-Mon") (Z.of_nat 7) = Ok vkey ∧
     length vkey = 7%nat ∧
     ∀ i, (i < 7)%nat →
       vkey !! i = normalize true (lit "Le-Mon")
                     !! (i `mod` length (normalize true (lit "Le-Mon")))%nat) ∧
  V.expand (V.init [] false) (lit "AB") 5 = Ok (lit "ABABA").
Proof.
  apply (expand_cycles_key (V.init [] true) (lit "Le-Mon") 7).
  vm_compute. discriminate.
Defined.

(** C9, as amended.  When the held text is made of alphabet symbols and the
    key's normalization is non-empty, [encrypt] replaces the held text with
    an output of exactly the same length; so does [decrypt] when, moreover,
    every symbol of the normalized key belongs to the alphabet. *)
Theorem vigenere_length_preserved (self : V.t) (key : str) :
  built self →
  Forall (λ c, c ∈ alphabet (V.full self)) (V.text self) →
  normalize (V.full self) key ≠ [] →
  (∃ self', V.encrypt key self = (self', None) ∧
            length (V.text self') = length (V.text self)) ∧
  (Forall (λ k, k ∈ alphabet (V.full self)) (normalize (V.full self) key) →
   ∃ self', V.decrypt key self = (self', None) ∧
            length (V.text self') = length (V.text self)).
Proof.
  intros Hb Hall Hne.
  destruct (expand_symbols self key (length (V.text self)) Hne)
    as (ekey & He & Hlen & _).
  split.
  - destruct (encrypt_ok self key Hb Hall Hne) as (ekey' & He' & ->).
    rewrite He in He'. injection He' as <-. eexists. split; [done|].
    simpl. rewrite length_zip_with. lia.
  - intros Hkey.
    destruct (decrypt_ok self key Hb Hall Hne Hkey) as (ekey' & He' & ->).
    rewrite He in He'. injection He' as <-. eexists. split; [done|].
    simpl. rewrite length_zip_with. lia.
Qed.

Lemma vigenere_length_preserved_witness :
  let self := V.init (lit "Attack at dawn") false in
  (∃ self', V.encrypt (lit "lemon") self = (self', None) ∧
            length (V.text self') = length (V.text self)) ∧
  (∃ self', V.decrypt (lit "lemon") self = (self', None) ∧
            length (V.text self') = length (V.text self)).
Proof.
  destruct (vigenere_length_preserved (V.init (lit "Attack at dawn") false)
              (lit "lemon")) as [Henc Hdec].
  - apply built_init.
  - apply (bool_decide_unpack _). vm_compute. exact I.
  - vm_compute. discriminate.
  - split; [exact Henc|]. apply Hdec.
    apply (bool_decide_unpack _). vm_compute. exact I.
Defined.

(** C9, as stated, fails.  Under the key "1", which is its own
    normalization, [decrypt] turns the two symbols "AB" into the empty
    text; and [encrypt] gives no output at all for a held text with a
    digit, it raises [ValueError]. *)
Lemma vigenere_length_preserved_counterexample :
  (normalize false (lit "1") = lit "1" ∧
   length (V.text (V.init (lit "AB") false)) = 2%nat ∧
   ∃ self', V.decrypt (lit "1") (V.init (lit "AB") false) = (self', None) ∧
            length (V.text self') = 0%nat) ∧
  V.encrypt (lit "A") (V.init (lit "A1") false)
    = (V.init (lit "A1") false, Some ValueError).
Proof.
  split; [split; [|split]|]; [by vm_compute..| |by vm_compute].
  eexists. split; [by vm_compute|done].
Qed.

(** C6, as amended.  For every key that normalizes to the empty string:
    when the held text is not empty, key expansion raises
    [ZeroDivisionError], the interpreter's own division by zero, so that
    [encrypt] and [decrypt] fail with it before any symbol is transformed
    and leave the object as it was; when the held text is empty, both
    return without error and leave it empty. *)
Theorem empty_key_division_by_zero (self : V.t) (key : str) :
  normalize (V.full self) key = [] →
  (V.text self ≠ [] →
   V.expand self key (Z.of_nat (length (V.text self)))
     = Raise ZeroDivisionError ∧
   V.encrypt key self = (self, Some ZeroDivisionError) ∧
   V.decrypt key self = (self, Some ZeroDivisionError)) ∧
  (V.text self = [] →
   V.encrypt key self = (self, None) ∧ V.decrypt key self = (self, None)).
Proof.
  intros Hnil.
  pose proof (expand_empty self key (length (V.text self)) Hnil) as He.
  unfold V.encrypt, V.decrypt, V.encrypt_text, V.decrypt_text. rewrite He.
  split.
  - intros Hne. by destruct (V.text self).
  - intros Htext. rewrite Htext. simpl. unfold for_enumerate, V.set_text.
    simpl. destruct self. simpl in *. by subst.
Qed.

Lemma empty_key_division_by_zero_witness :
  let self := V.init (lit "Attack") false in
  let empty := V.init (lit "...") false in
  (V.expand self (lit "?! ") (Z.of_nat (length (V.text self)))
     = Raise ZeroDivisionError ∧
   V.encrypt (lit "?! ") self = (self, Some ZeroDivisionError) ∧
   V.decrypt (lit "?! ") self = (self, Some ZeroDivisionError)) ∧
  (V.encrypt (lit "?! ") empty = (empty, None) ∧
   V.decrypt (lit "?! ") empty = (empty, None)).
Proof.
  split.
  - apply (empty_key_division_by_zero (V.init (lit "Attack") false) (lit "?! ")).
    + vm_compute. reflexivity.
    + vm_compute. discriminate.
  - apply (empty_key_division_by_zero (V.init (lit "...") false) (lit "?! ")).
    + vm_compute. reflexivity.
    + vm_compute. reflexivity.
Defined.

(** C6, as stated, fails.  The key "!" normalizes to the empty string; on
    the text "A" the error is [ZeroDivisionError], which the source never
    raises on purpose, and on the empty text there is no error. *)
Lemma empty_key_counterexample :
  normalize false (lit "!") = [] ∧
  V.encrypt (lit "!") (V.init (lit "A") false)
    = (V.init (lit "A") false, Some ZeroDivisionError) ∧
  V.decrypt (lit "!") (V.init (lit "A") false)
    = (V.init (lit "A") false, Some ZeroDivisionError) ∧
  deliberate ZeroDivisionError = false ∧
  snd (V.encrypt (lit "!") (V.init [] false)) = None ∧
  snd (V.decrypt (lit "!") (V.init [] false)) = None.
Proof. repeat split; by vm_compute. Qed.

(** C3, as amended.  For every raw input and either alphabet mode, every
    character of the normalized text is a member of the active alphabet or
    one of the other word characters that normalization keeps: a digit, the
    underscore or a non-ASCII alphanumeric byte.  So the normalized text is
    made of alphabet symbols when the raw input has none of these. *)
Theorem normalized_symbols (full : bool) (raw : str) :
  Forall (λ c, c ∈ alphabet full ∨ other_word c = true) (normalize full raw) ∧
  (Forall (λ c, other_word c = false) raw →
   Forall (λ c, c ∈ alphabet full) (normalize full raw)).
Proof.
  assert (∀ c, c ∈ normalize full raw →
            (c ∈ alphabet full ∨ other_word c = true) ∧
            ∃ c0, c0 ∈ raw ∧ other_word c0 = other_word c) as Hc.
  { intros c Hin. apply elem_of_normalize in Hin as (c0 & Hraw & Hw & ->).
    rewrite is_word_cases in Hw. rewrite alphabet_spec. destruct full.
    - split; [|by exists c0].
      destruct (is_upper c0), (is_lower c0), (other_word c0); naive_solver.
    - rewrite upper_char_upper, upper_char_other.
      split; [|by exists c0].
      destruct (is_upper c0), (is_lower c0), (other_word c0); naive_solver. }
  split.
  - apply Forall_forall. intros c Hin. by apply Hc.
  - intros Hraw. apply Forall_forall. intros c Hin.
    destruct (Hc c Hin) as ([?|Hother] & c0 & Hc0 & Heq); [done|].
    rewrite <-Heq in Hother.
    apply (proj1 (Forall_forall _ _) Hraw) in Hc0. congruence.
Qed.

Lemma normalized_symbols_witness :
  Forall (λ c, c ∈ alphabet false ∨ other_word c = true)
         (normalize false (lit "Hello, World!")) ∧
  Forall (λ c, c ∈ alphabet false) (normalize false (lit "Hello, World!")).
Proof.
  destruct (normalized_symbols false (lit "Hello, World!")) as [H1 H2].
  split; [exact H1|]. apply H2.
  apply (bool_decide_unpack _). vm_compute. exact I.
Defined.

(** C3, as stated, fails.  "Hello, World! 123" normalizes to
    "HELLOWORLD123" in restricted mode, and the digits are not in the
    alphabet. *)
Lemma normalized_symbols_counterexample :
  normalize false (lit "Hello, World! 123") = lit "HELLOWORLD123" ∧
  ¬ Forall (λ c, c ∈ alphabet false) (normalize false (lit "Hello, World! 123")).
Proof.
  split; [by vm_compute|]. intros Hall.
  apply (bool_decide_pack _) in Hall. vm_compute in Hall. exact Hall.
Qed.

(** ** Properties of the block affine cipher *)

Example affine_of_attack_at_dawn :
  V.text (fst (V.encrypt (lit "LEMON") (V.init (lit "Attack at dawn!") false)))
    = B.text (B.init (lit "LXFOPVEFRNHR") 26 false) ∧
  B.text (fst (B.encrypt 3 5 (B.init (lit "LXFOPVEFRNHR") 26 false)))
    = lit "MWUVYQRUESAE".
Proof. split; by vm_compute. Qed.

Lemma affine_init_fields plaintext modulo full :
  B.alpha (B.init plaintext modulo full) = alphabet full ∧
  B.modulo (B.init plaintext modulo full) = modulo ∧
  B.block (B.init plaintext modulo full) = 2.
Proof. by destruct full. Qed.

(** The padding loop of the constructor leaves by its guard: the held text
    has even length. *)
Lemma affine_init_padded plaintext modulo full :
  ¬ (Z.of_nat (length (B.text (B.init plaintext modulo full))) `mod` 2 > 0).
Proof.
  unfold B.init. simpl. set (text := if negb full then _ else _).
  change (Z.to_nat 2) with 2%nat. simpl.
  repeat case_decide; try done.
  rewrite !length_app, !Nat2Z.inj_add in *. simpl in *.
  Z.div_mod_to_equations. lia.
Qed.

(** Text over the alphabet and of even length is held as it is. *)
Lemma affine_init_text T modulo full :
  Forall (λ c, c ∈ alphabet full) T → Z.of_nat (length T) `mod` 2 = 0 →
  B.text (B.init T modulo full) = T.
Proof.
  intros Hall Heven. unfold B.init. simpl.
  change (if negb full then upper (strip_nonword T) else strip_nonword T)
    with (normalize full T).
  rewrite (normalize_alphabet full T Hall).
  change (Z.to_nat 2) with 2%nat. simpl. by rewrite decide_False by lia.
Qed.

Lemma affine_dec_enc_sym (alpha : str) m a b inv ch :
  NoDup alpha → m = Z.of_nat (length alpha) → (a * inv) `mod` m = 1 →
  ch ∈ alpha →
  affine_dec_sym alpha m inv b (affine_enc_sym alpha m a b ch) = ch.
Proof.
  intros Hnd Hm Hinv Hch.
  apply list_elem_of_lookup_1 in Hch as [n Hn].
  pose proof (lookup_lt_Some _ _ _ Hn) as Hlt.
  unfold affine_enc_sym. rewrite (find_lookup alpha ch n Hnd Hn).
  destruct (getitem_mod alpha m (a * Z.of_nat n + b)) as (x & _ & _ & Hx & _);
    [lia|].
  rewrite Hx. simpl. unfold affine_dec_sym.
  rewrite (find_lookup alpha x _ Hnd Hx).
  pose proof (Z.mod_pos_bound (a * Z.of_nat n + b) m ltac:(lia)).
  rewrite Z2Nat.id by lia.
  rewrite affine_inverse_index by (done || lia).
  by rewrite Nat2Z.id, Hn.
Qed.

Lemma affine_round_trip_held (self : B.t) (A Bk : Z) :
  NoDup (B.alpha self) →
  B.modulo self = Z.of_nat (length (B.alpha self)) → 2 ≤ B.modulo self →
  Z.gcd A (B.modulo self) = 1 →
  Forall (λ c, c ∈ B.alpha self) (B.text self) →
  ∃ self', and_then (B.encrypt A Bk self) (B.decrypt A Bk) = (self', None)
           ∧ B.text self' = B.text self.
Proof.
  intros Hnd Hmod HM2 Hg HT.
  assert (1 ≤ B.modulo self ≤ Z.of_nat (length (B.alpha self))) as Hm by lia.
  destruct (get_inverse_coprime A _ HM2 Hg) as (inv & Hinv & _ & Hmul).
  unfold B.encrypt. rewrite (affine_encrypt_text_ok self Hm). unfold and_then.
  set (self1 := B.set_text self _).
  unfold B.decrypt. rewrite (affine_decrypt_text_ok self1 Hm A Bk inv Hinv).
  eexists. split; [done|]. simpl.
  rewrite <-list_fmap_compose. rewrite <-(list_fmap_id (B.text self)) at 2.
  apply Forall_fmap_ext_1. eapply Forall_impl; [exact HT|].
  intros ch Hch. simpl. by apply affine_dec_enc_sym.
Qed.

(** C2, as amended.  For every text [T] of even length whose symbols all
    belong to the active alphabet, modulus [M] equal to the size of that
    alphabet, multiplier [A] coprime to [M] and any offset [B],
    constructing a BlockAffineCipher from [T] with [M], then calling
    [encrypt(A, B)] followed by [decrypt(A, B)], raises nothing and leaves
    the held text equal to [T]. *)
Theorem affine_round_trip (full : bool) (T : str) (M A Bk : Z) :
  Forall (λ c, c ∈ alphabet full) T →
  Z.of_nat (length T) `mod` 2 = 0 →
  M = Z.of_nat (length (alphabet full)) →
  Z.gcd A M = 1 →
  ∃ self', and_then (B.encrypt A Bk (B.init T M full)) (B.decrypt A Bk)
             = (self', None) ∧ B.text self' = T.
Proof.
  intros HT Heven HM Hg.
  destruct (affine_init_fields T M full) as (Halpha & Hmod & _).
  pose proof (affine_init_text T M full HT Heven) as Htext.
  assert (2 ≤ M) as HM2 by (rewrite HM, alphabet_length; destruct full; lia).
  destruct (affine_round_trip_held (B.init T M full) A Bk)
    as (self' & Hrun & Hheld).
  - rewrite Halpha. apply NoDup_alphabet.
  - by rewrite Halpha, Hmod.
  - by rewrite Hmod.
  - by rewrite Hmod.
  - by rewrite Halpha, Htext.
  - exists self'. split; [done|]. by rewrite Hheld.
Qed.

Lemma affine_round_trip_witness :
  ∃ self',
    and_then (B.encrypt 3 5 (B.init (lit "LXFOPVEFRNHR") 26 false))
             (B.decrypt 3 5) = (self', None)
    ∧ B.text self' = lit "LXFOPVEFRNHR".
Proof.
  apply (affine_round_trip false (lit "LXFOPVEFRNHR") 26 3 5).
  - apply (bool_decide_unpack _). vm_compute. exact I.
  - reflexivity.
  - reflexivity.
  - reflexivity.
Defined.

(** C2, as stated, fails.  "A1" is its own normalization and needs no
    padding, yet the round trip under modulus 26 and keys (3, 5) turns the
    digit into "Z". *)
Lemma affine_round_trip_counterexample :
  normalize false (lit "A1") = lit "A1" ∧
  B.text (B.init (lit "A1") 26 false) = lit "A1" ∧
  Z.gcd 3 26 = 1 ∧
  ∃ self', and_then (B.encrypt 3 5 (B.init (lit "A1") 26 false))
                    (B.decrypt 3 5) = (self', None) ∧
           B.text self' = lit "AZ".
Proof.
  split; [by vm_compute|]. split; [by vm_compute|]. split; [done|].
  eexists. split; [by vm_compute|done].
Qed.

(** C8, as amended.  For all integers [a] and [b] and any held text, when
    the modulus lies between 1 and the size of the alphabet (as it does
    when it equals that size), [encrypt(a, b)] raises nothing: it replaces
    each symbol, of alphabet index [n], with the alphabet symbol at index
    [(a*n + b) mod modulus], and returns the object. *)
Theorem affine_encrypt_defined (self : B.t) (a b : Z) :
  1 ≤ B.modulo self ≤ Z.of_nat (length (B.alpha self)) →
  ∃ s, B.encrypt a b self = (B.set_text self s, None) ∧
       length s = length (B.text self) ∧
       ∀ i ch, B.text self !! i = Some ch →
         ∃ x, getitem (B.alpha self)
                ((a * find (B.alpha self) ch + b) `mod` B.modulo self) = Ok x ∧
              s !! i = Some x.
Proof.
  intros Hm. unfold B.encrypt. rewrite (affine_encrypt_text_ok self Hm).
  eexists. split; [done|]. split; [by rewrite length_fmap|].
  intros i ch Hi.
  destruct (getitem_mod (B.alpha self) (B.modulo self)
              (a * find (B.alpha self) ch + b) Hm) as (x & _ & Hx & Hlk & _).
  exists x. split; [done|]. rewrite list_lookup_fmap, Hi. simpl.
  unfold affine_enc_sym. by rewrite Hlk.
Qed.

Lemma affine_encrypt_defined_witness :
  let self := B.init (lit "Hello, World! 123") 26 false in
  ∃ s, B.encrypt 4 (-7) self = (B.set_text self s, None) ∧
       length s = length (B.text self) ∧
       ∀ i ch, B.text self !! i = Some ch →
         ∃ x, getitem (B.alpha self)
                ((4 * find (B.alpha self) ch + (-7)) `mod` B.modulo self) = Ok x ∧
              s !! i = Some x.
Proof.
  apply (affine_encrypt_defined (B.init (lit "Hello, World! 123") 26 false)).
  vm_compute. split; discriminate.
Defined.

(** C8, as stated, fails.  With modulus 27 over the 26-letter alphabet,
    [encrypt(1, 1)] sends "Z", of index 25, to index 26 and raises
    [IndexError]. *)
Lemma affine_encrypt_defined_counterexample :
  B.encrypt 1 1 (B.init (lit "Z") 27 false)
    = (B.init (lit "Z") 27 false, Some IndexError).
Proof. by vm_compute. Qed.

(** C7, as amended.  For all integers [a] and [b] and a modulus of at least
    2: on a held text that is not empty, [decrypt(a, b)] fails with the
    "no modular inverse" exception if and only if [gcd(a, modulus) ≠ 1];
    the exception is then raised in the first turn of the loop, before any
    symbol is written, and the object is left as it was; whatever the
    exception, a failing [decrypt] leaves the object as it was.  On an
    empty held text [decrypt] returns without error for every [a]. *)
Theorem affine_decrypt_no_inverse (self : B.t) (a b : Z) :
  2 ≤ B.modulo self →
  (B.text self ≠ [] →
   (snd (B.decrypt a b self) = Some B.no_inverse
      ↔ Z.gcd a (B.modulo self) ≠ 1) ∧
   (Z.gcd a (B.modulo self) ≠ 1 →
    B.decrypt a b self = (self, Some B.no_inverse) ∧
    ∀ ch rest res, B.text self = ch :: rest →
      B.decrypt_step self a b 0 ch res = Raise B.no_inverse)) ∧
  (∀ e, snd (B.decrypt a b self) = Some e → fst (B.decrypt a b self) = self) ∧
  (B.text self = [] → B.decrypt a b self = (self, None)).
Proof.
  intros Hm. split; [|split].
  - intros Hne.
    assert (Z.gcd a (B.modulo self) ≠ 1 →
            B.decrypt a b self = (self, Some B.no_inverse)) as Hfail.
    { intros Hg. apply affine_decrypt_raise; [|done].
      apply get_inverse_not_coprime; [lia|done]. }
    split; [split|].
    + intros Hraise Hg.
      destruct (get_inverse_coprime a _ Hm Hg) as (inv & Hinv & _).
      by apply (affine_decrypt_not_no_inverse self a b inv Hinv).
    + intros Hg. by rewrite Hfail.
    + intros Hg. split; [by apply Hfail|]. intros ch rest res _.
      apply affine_decrypt_step_raise.
      apply get_inverse_not_coprime; [lia|done].
  - intros e. unfold B.decrypt. by destruct (B.decrypt_text self a b).
  - apply affine_decrypt_empty.
Qed.

Lemma affine_decrypt_no_inverse_witness :
  let self := B.init (lit "HELLO") 26 false in
  let empty := B.init (lit "") 26 false in
  ((snd (B.decrypt 13 0 self) = Some B.no_inverse ↔ Z.gcd 13 26 ≠ 1) ∧
   (B.decrypt 13 0 self = (self, Some B.no_inverse) ∧
    ∀ ch rest res, B.text self = ch :: rest →
      B.decrypt_step self 13 0 0 ch res = Raise B.no_inverse)) ∧
  fst (B.decrypt 13 0 self) = self ∧
  B.decrypt 13 0 empty = (empty, None).
Proof.
  destruct (affine_decrypt_no_inverse (B.init (lit "HELLO") 26 false) 13 0)
    as (Hfull & Hsame & _).
  { vm_compute. discriminate. }
  destruct (affine_decrypt_no_inverse (B.init (lit "") 26 false) 13 0)
    as (_ & _ & Hempty).
  { vm_compute. discriminate. }
  split; [|split].
  - destruct Hfull as [Hiff Hraise].
    + vm_compute. discriminate.
    + split; [exact Hiff|]. apply Hraise. vm_compute. discriminate.
  - apply (Hsame B.no_inverse). vm_compute. reflexivity.
  - apply Hempty. vm_compute. reflexivity.
Defined.

(** C7, as stated, fails.  13 and 26 are not coprime, yet on the empty
    held text [decrypt(13, 0)] returns without error. *)
Lemma affine_decrypt_no_inverse_counterexample :
  Z.gcd 13 26 ≠ 1 ∧
  B.decrypt 13 0 (B.init [] 26 false) = (B.init [] 26 false, None).
Proof. split; by vm_compute. Qed.

Lemma affine_decrypt_alphabet (self : B.t) (a b : Z) :
  1 ≤ B.modulo self ≤ Z.of_nat (length (B.alpha self)) →
  Forall (λ c, c ∈ B.alpha self) (B.text self) →
  Forall (λ c, c ∈ B.alpha self) (B.text (fst (B.decrypt a b self))).
Proof.
  intros Hm Hall.
  destruct (B.get_inverse a (B.modulo self)) as [inv|e] eqn:Hinv.
  - unfold B.decrypt.
    rewrite (affine_decrypt_text_ok self Hm a b inv Hinv). simpl.
    apply Forall_fmap, Forall_true. intros ch.
    by apply affine_dec_sym_elem.
  - destruct (decide (B.text self = [])) as [Hnil|Hne].
    + by rewrite (affine_decrypt_empty self a b Hnil).
    + by rewrite (affine_decrypt_raise self a b e Hinv Hne).
Qed.

(** C10, as amended.  When the modulus lies between 1 and the size of the
    alphabet, [encrypt(a, b)] does not fail on a held text with symbols
    outside the alphabet: the alphabet index of such a symbol is computed
    as -1 and the symbol is replaced by the alphabet symbol at index
    [(b - a) mod modulus], the same for all of them; no [decrypt] that
    follows brings the original text back. *)
Theorem affine_out_of_alphabet (self : B.t) (a b : Z) :
  1 ≤ B.modulo self ≤ Z.of_nat (length (B.alpha self)) →
  ∃ s x, B.encrypt a b self = (B.set_text self s, None) ∧
         getitem (B.alpha self) ((b - a) `mod` B.modulo self) = Ok x ∧
         (∀ i ch, B.text self !! i = Some ch → ch ∉ B.alpha self →
            find (B.alpha self) ch = -1 ∧ s !! i = Some x) ∧
         (¬ Forall (λ c, c ∈ B.alpha self) (B.text self) →
          ∀ a' b',
            B.text (fst (and_then (B.encrypt a b self) (B.decrypt a' b')))
              ≠ B.text self).
Proof.
  intros Hm.
  destruct (getitem_mod (B.alpha self) (B.modulo self) (b - a) Hm)
    as (x & _ & Hx & Hlk & _).
  unfold B.encrypt. rewrite (affine_encrypt_text_ok self Hm).
  eexists. exists x. split; [done|]. split; [done|]. split.
  - intros i ch Hi Hout. pose proof (find_not_elem _ _ Hout) as Hfind.
    split; [done|]. rewrite list_lookup_fmap, Hi. simpl.
    unfold affine_enc_sym. rewrite Hfind.
    replace (a * -1 + b) with (b - a) by lia. by rewrite Hlk.
  - intros Hout a' b' Heq. apply Hout. rewrite <-Heq. unfold and_then.
    apply (affine_decrypt_alphabet (B.set_text self _) a' b' Hm). simpl.
    apply Forall_fmap, Forall_true. intros ch.
    by apply affine_enc_sym_elem.
Qed.

Lemma affine_out_of_alphabet_witness :
  let self := B.init (lit "A1B2") 26 false in
  ∃ s x, B.encrypt 3 5 self = (B.set_text self s, None) ∧
         getitem (B.alpha self) ((5 - 3) `mod` B.modulo self) = Ok x ∧
         (∀ i ch, B.text self !! i = Some ch → ch ∉ B.alpha self →
            find (B.alpha self) ch = -1 ∧ s !! i = Some x) ∧
         (∀ a' b',
            B.text (fst (and_then (B.encrypt 3 5 self) (B.decrypt a' b')))
              ≠ B.text self).
Proof.
  destruct (affine_out_of_alphabet (B.init (lit "A1B2") 26 false) 3 5)
    as (s & x & Henc & Hx & Hsame & Hlost).
  - vm_compute. split; discriminate.
  - exists s, x. split; [exact Henc|]. split; [exact Hx|].
    split; [exact Hsame|]. apply Hlost. intros Hall.
    apply (bool_decide_pack _) in Hall. vm_compute in Hall. exact Hall.
Defined.

(** C10, as stated, fails.  With modulus 27 over the 26-letter alphabet the
    digit "1", of index -1, is sent by [encrypt(1, 0)] to index 26, and
    [encrypt] raises [IndexError]. *)
Lemma affine_out_of_alphabet_counterexample :
  B.text (B.init (lit "1") 27 false) = lit "1A" ∧
  find (B.alpha (B.init (lit "1") 27 false)) "1"%char = -1 ∧
  B.encrypt 1 0 (B.init (lit "1") 27 false)
    = (B.init (lit "1") 27 false, Some IndexError).
Proof. repeat split; by vm_compute. Qed.

(** ** Constructing again from held text *)

Lemma filter_word_id (s : str) :
  Forall (λ c, is_word c = true) s → List.filter is_word s = s.
Proof.
  induction 1 as [|c s Hc _ IH]; [done|]. simpl. by rewrite Hc, IH.
Qed.

Lemma is_word_upper_char c : is_word (upper_char c) = is_word c.
Proof. each_char c. Qed.

Lemma upper_char_idemp c : upper_char (upper_char c) = upper_char c.
Proof. each_char c. Qed.

Lemma normalize_word full s :
  Forall (λ c, is_word c = true) (normalize full s).
Proof.
  apply Forall_forall. intros c Hc.
  apply elem_of_normalize in Hc as (c0 & _ & Hw & ->).
  destruct full; [done|]. by rewrite is_word_upper_char.
Qed.

Lemma normalize_idemp full s :
  normalize full (normalize full s) = normalize full s.
Proof.
  unfold normalize at 1. unfold strip_nonword.
  rewrite (filter_word_id _ (normalize_word full s)).
  destruct full; simpl; [done|]. unfold normalize, upper. simpl.
  rewrite <-list_fmap_compose. apply list_fmap_ext. intros _ c _. simpl.
  apply upper_char_idemp.
Qed.

Lemma normalize_app full s1 s2 :
  normalize full (s1 ++ s2) = normalize full s1 ++ normalize full s2.
Proof.
  unfold normalize, strip_nonword, upper. rewrite List.filter_app.
  destruct full; simpl; [done|]. by rewrite fmap_app.
Qed.

Lemma vigenere_init_held (plaintext : str) (full : bool) :
  V.from_string (V.__str__ (V.init plaintext full)) full
    = V.init plaintext full.
Proof.
  unfold V.from_string, V.__str__. rewrite text_init. unfold V.init at 1.
  change (if negb full then upper (strip_nonword ?s) else strip_nonword ?s)
    with (normalize full s).
  by rewrite normalize_idemp.
Qed.

(** X1.  A VigenereCipher constructed from the text that a constructed
    cipher of the same mode holds is that same cipher: normalizing twice
    changes nothing. *)
Theorem vigenere_from_held_text (plaintext : str) (full : bool) :
  V.from_string (V.__str__ (V.init plaintext full)) full
    = V.init plaintext full.
Proof. apply vigenere_init_held. Qed.

Lemma Z_of_nat_mod_2 (n : nat) :
  Z.of_nat n `mod` 2 = if Nat.even n then 0 else 1.
Proof.
  destruct (Nat.even n) eqn:Heven.
  - apply Nat.even_spec in Heven as [k ->]. Z.div_mod_to_equations. lia.
  - apply (f_equal negb) in Heven. rewrite Nat.negb_even in Heven.
    apply Nat.odd_spec in Heven as [k ->]. Z.div_mod_to_equations. lia.
Qed.

Lemma pad_block_2 (t : str) :
  B.pad 2 2 t = t ++ (if Nat.even (length t) then [] else lit "A").
Proof.
  unfold B.pad. rewrite Z_of_nat_mod_2.
  destruct (Nat.even (length t)) eqn:Heven.
  - rewrite decide_False by lia. by rewrite app_nil_r.
  - rewrite decide_True by lia. rewrite Z_of_nat_mod_2, length_app.
    change (length (lit "A")) with 1%nat.
    by rewrite Nat.add_1_r, Nat.even_succ, <-Nat.negb_even, Heven.
Qed.

Lemma affine_init_text_pad (plaintext : str) (modulo : Z) (full : bool) :
  B.text (B.init plaintext modulo full)
    = normalize full plaintext
      ++ (if Nat.even (length (normalize full plaintext)) then [] else lit "A")
  ∧ Nat.even (length (B.text (B.init plaintext modulo full))) = true.
Proof.
  assert (B.text (B.init plaintext modulo full)
          = B.pad 2 2 (normalize full plaintext)) as -> by done.
  rewrite pad_block_2. split; [done|].
  destruct (Nat.even (length (normalize full plaintext))) eqn:Heven.
  - by rewrite app_nil_r.
  - rewrite length_app. change (length (lit "A")) with 1%nat.
    by rewrite Nat.add_1_r, Nat.even_succ, <-Nat.negb_even, Heven.
Qed.

(** X2.  The text a BlockAffineCipher holds after construction is the
    normalized input when that has even length, and the normalized input
    followed by one "A" when it has odd length; its length is even in both
    cases. *)
Theorem affine_init_pads (plaintext : str) (modulo : Z) (full : bool) :
  B.text (B.init plaintext modulo full)
    = normalize full plaintext
      ++ (if Nat.even (length (normalize full plaintext)) then [] else lit "A")
  ∧ Nat.even (length (B.text (B.init plaintext modulo full))) = true.
Proof. apply affine_init_text_pad. Qed.

Lemma affine_init_held (plaintext : str) (modulo : Z) (full : bool) :
  B.from_string (B.__str__ (B.init plaintext modulo full)) modulo full
    = B.init plaintext modulo full.
Proof.
  unfold B.from_string, B.__str__.
  destruct (affine_init_text_pad plaintext modulo full) as [Htext Heven].
  destruct (affine_init_text_pad (B.text (B.init plaintext modulo full))
              modulo full) as [Htext' _].
  assert (normalize full (B.text (B.init plaintext modulo full))
          = B.text (B.init plaintext modulo full)) as Hnorm.
  { rewrite Htext, normalize_app, normalize_idemp. f_equal.
    destruct (Nat.even _); [by destruct full|].
    destruct full; by vm_compute. }
  rewrite Hnorm, Heven, app_nil_r in Htext'.
  destruct (affine_init_fields plaintext modulo full) as (Ha & Hm & Hb).
  destruct (affine_init_fields (B.text (B.init plaintext modulo full))
              modulo full) as (Ha' & Hm' & Hb').
  destruct (B.init (B.text _) modulo full), (B.init plaintext modulo full).
  simpl in *. congruence.
Qed.

(** X3.  A BlockAffineCipher constructed from the text that a constructed
    cipher of the same modulus and mode holds is that same cipher:
    normalized, padded text is neither changed nor padded again. *)
Theorem affine_from_held_text (plaintext : str) (modulo : Z) (full : bool) :
  B.from_string (B.__str__ (B.init plaintext modulo full)) modulo full
    = B.init plaintext modulo full.
Proof. apply affine_init_held. Qed.

(** ** The table as a shift of the alphabet *)

Lemma tabula_cells full :
  Forall (λ r, Forall (λ c,
      tabula (alphabet full) !! r ≫= (.!! c)
        = alphabet full !! ((r + c) `mod` length (alphabet full))%nat)
    (seq 0 (length (alphabet full)))) (seq 0 (length (alphabet full))).
Proof. destruct full; apply (bool_decide_unpack _); by vm_compute. Qed.

Lemma tabula_cell full r c row :
  tabula (alphabet full) !! r = Some row →
  (c < length (alphabet full))%nat →
  row !! c = alphabet full !! ((r + c) `mod` length (alphabet full))%nat.
Proof.
  intros Hrow Hc. pose proof (lookup_lt_Some _ _ _ Hrow) as Hr.
  rewrite tabula_length in Hr.
  pose proof (proj1 (Forall_forall _ _) (tabula_cells full) r) as Hcells.
  simpl in Hcells. rewrite elem_of_seq in Hcells.
  pose proof (proj1 (Forall_forall _ _) (Hcells ltac:(lia)) c) as Hcell.
  simpl in Hcell. rewrite elem_of_seq, Hrow in Hcell. apply Hcell. lia.
Qed.

(** X4.  The table the constructor builds is the tabula recta: for either
    alphabet mode, of size [n], the cell in row [r] and column [c] holds
    the alphabet symbol of index [(r + c) mod n]; so the table is symmetric
    and its first column is the alphabet. *)
Theorem table_is_shift (full : bool) (plaintext : str) (r c : nat) :
  let n := length (alphabet full) in
  (r < n)%nat → (c < n)%nat →
  ∃ row x, V.table (V.init plaintext full) !! r = Some row ∧
           row !! c = Some x ∧
           alphabet full !! ((r + c) `mod` n)%nat = Some x.
Proof.
  cbv zeta. intros Hr Hc. rewrite table_init.
  destruct (lookup_lt_is_Some_2 (tabula (alphabet full)) r) as [row Hrow].
  { by rewrite tabula_length. }
  destruct (tabula_row_lookup full r row Hrow) as (_ & Hlen & _).
  destruct (lookup_lt_is_Some_2 row c) as [x Hx]; [by rewrite Hlen|].
  exists row, x. split; [done|]. split; [done|].
  by rewrite <-(tabula_cell full r c row Hrow Hc).
Qed.

Lemma table_is_shift_witness :
  ∃ row x, V.table (V.init [] false) !! 11%nat = Some row ∧
           row !! 19%nat = Some x ∧
           alphabet false !! ((11 + 19) `mod` length (alphabet false))%nat
             = Some x.
Proof.
  apply (table_is_shift false [] 11 19); vm_compute; lia.
Defined.

(** The symbols of the transforms in terms of alphabet indices. *)
Lemma enc_sym_shift full k t r ci :
  alphabet full !! r = Some k → alphabet full !! ci = Some t →
  alphabet full !! ((ci + r) `mod` length (alphabet full))%nat
    = Some (enc_sym full k t).
Proof.
  intros Hr Hci. destruct (enc_cell full k t ci Hci) as (row & Hrow & Hx & _).
  rewrite (row_of_lookup full k r Hr) in Hrow.
  rewrite (tabula_cell full r ci row Hrow) in Hx by by eapply lookup_lt_Some.
  by rewrite Nat.add_comm.
Qed.

Lemma dec_cell full k c r :
  alphabet full !! r = Some k → c ∈ alphabet full →
  ∃ row j, tabula (alphabet full) !! r = Some row ∧ row !! j = Some c ∧
           alphabet full !! j = Some (dec_sym full k c).
Proof.
  intros Hr Hc.
  destruct (lookup_lt_is_Some_2 (tabula (alphabet full)) r) as [row Hrow].
  { rewrite tabula_length. by eapply lookup_lt_Some. }
  destruct (tabula_row_lookup full r row Hrow) as (Hnd & Hlen & Hmem).
  apply Hmem in Hc. destruct (index_elem row c Hc) as (j & Hj & Hrj).
  destruct (lookup_lt_is_Some_2 (alphabet full) j) as [x Hx].
  { rewrite <-Hlen. by eapply lookup_lt_Some. }
  exists row, j. split; [done|]. split; [done|].
  unfold dec_sym. by rewrite (row_of_lookup full k r Hr), Hrow, Hj, Hx.
Qed.

Lemma dec_sym_elem full k c :
  k ∈ alphabet full → c ∈ alphabet full → dec_sym full k c ∈ alphabet full.
Proof.
  intros Hk Hc. apply list_elem_of_lookup_1 in Hk as [r Hr].
  destruct (dec_cell full k c r Hr Hc) as (_ & j & _ & _ & Hj).
  by eapply list_elem_of_lookup_2.
Qed.

Lemma dec_sym_shift full k c r ci :
  alphabet full !! r = Some k → alphabet full !! ci = Some c →
  alphabet full
    !! ((ci + (length (alphabet full) - r)) `mod` length (alphabet full))%nat
    = Some (dec_sym full k c).
Proof.
  intros Hr Hci.
  pose proof (lookup_lt_Some _ _ _ Hr) as Hrlt.
  pose proof (lookup_lt_Some _ _ _ Hci) as Hcilt.
  destruct (dec_cell full k c r Hr) as (row & j & Hrow & Hj & Hx).
  { by eapply list_elem_of_lookup_2. }
  destruct (tabula_row_lookup full r row Hrow) as (_ & Hlen & _).
  pose proof (lookup_lt_Some _ _ _ Hj) as Hjlt. rewrite Hlen in Hjlt.
  rewrite (tabula_cell full r j row Hrow Hjlt) in Hj.
  pose proof (NoDup_lookup _ _ _ _ (NoDup_alphabet full) Hj Hci) as Heq.
  rewrite <-Hx. f_equal. set (n := length (alphabet full)) in *.
  rewrite <-Heq, Nat.Div0.add_mod_idemp_l.
  replace (r + j + (n - r))%nat with (j + 1 * n)%nat by lia.
  rewrite Nat.Div0.mod_add. by apply Nat.mod_small.
Qed.

Lemma enc_dec_sym full k c :
  k ∈ alphabet full → c ∈ alphabet full →
  enc_sym full k (dec_sym full k c) = c.
Proof.
  intros Hk Hc. apply list_elem_of_lookup_1 in Hk as [r Hr].
  destruct (dec_cell full k c r Hr Hc) as (row & j & Hrow & Hj & Hx).
  destruct (enc_cell full k _ j Hx) as (row' & Hrow' & Hx' & _).
  rewrite (row_of_lookup full k r Hr), Hrow in Hrow'.
  injection Hrow' as <-. congruence.
Qed.

Lemma enc_sym_absent full k c :
  k ∉ alphabet full → c ∈ alphabet full → enc_sym full k c = c.
Proof.
  intros Hk Hc. apply list_elem_of_lookup_1 in Hc as [ci Hci].
  destruct (enc_cell full k c ci Hci) as (row & Hrow & Hx & _).
  assert (row_of full k = 0%nat) as Hrow0.
  { unfold row_of, index. by rewrite index_from_not_elem. }
  rewrite Hrow0, tabula_row0 in Hrow. injection Hrow as <-. congruence.
Qed.

(** ** The Vigenere transforms as shifts *)

Lemma expand_lookup self key ekey i :
  normalize (V.full self) key ≠ [] →
  V.expand self key (Z.of_nat (length (V.text self))) = Ok ekey →
  (i < length (V.text self))%nat →
  ekey !! i = normalize (V.full self) key
                !! (i `mod` length (normalize (V.full self) key))%nat.
Proof.
  intros Hne He Hi.
  destruct (expand_nonempty self key (length (V.text self)) Hne)
    as (ekey' & He' & _ & Hsym).
  rewrite He in He'. injection He' as <-. by apply Hsym.
Qed.

(** X5.  On a held text of alphabet symbols, under a key whose
    normalization is non-empty, [encrypt] returns and shifts every symbol
    by its key symbol: the symbol of alphabet index [ci] at position [i]
    becomes the alphabet symbol of index [(ci + r) mod n], where [r] is
    the alphabet index of the key symbol at position [i mod len(key)] and
    [n] the size of the alphabet. *)
Theorem vigenere_encrypt_shifts (self : V.t) (key : str) :
  let alpha := alphabet (V.full self) in
  let nkey := normalize (V.full self) key in
  built self →
  Forall (λ c, c ∈ alpha) (V.text self) →
  nkey ≠ [] →
  ∃ self', V.encrypt key self = (self', None) ∧
    ∀ i t k ci r,
      V.text self !! i = Some t → nkey !! (i `mod` length nkey)%nat = Some k →
      alpha !! ci = Some t → alpha !! r = Some k →
      V.text self' !! i = alpha !! ((ci + r) `mod` length alpha)%nat.
Proof.
  cbv zeta. intros Hb Hall Hne.
  destruct (encrypt_ok self key Hb Hall Hne) as (ekey & He & ->).
  eexists. split; [done|]. intros i t k ci r Ht Hk Hci Hr. simpl.
  rewrite <-(expand_lookup self key ekey i Hne He) in Hk
    by by eapply lookup_lt_Some.
  rewrite lookup_zip_with, Hk, Ht. simpl.
  by rewrite (enc_sym_shift _ k t r ci).
Qed.

Lemma vigenere_encrypt_shifts_witness :
  let self := V.init (lit "Attack at dawn") false in
  ∃ self', V.encrypt (lit "Lemon") self = (self', None) ∧
    ∀ i t k ci r,
      V.text self !! i = Some t →
      normalize false (lit "Lemon")
        !! (i `mod` length (normalize false (lit "Lemon")))%nat = Some k →
      alphabet false !! ci = Some t → alphabet false !! r = Some k →
      V.text self' !! i
        = alphabet false !! ((ci + r) `mod` length (alphabet false))%nat.
Proof.
  apply (vigenere_encrypt_shifts (V.init (lit "Attack at dawn") false)
           (lit "Lemon")).
  - apply built_init.
  - apply (bool_decide_unpack _). vm_compute. exact I.
  - vm_compute. discriminate.
Defined.

(** X6.  On a held text of alphabet symbols, under a key whose
    normalization is non-empty and made of alphabet symbols, [decrypt]
    shifts every symbol back by its key symbol: the symbol of alphabet
    index [ci] at position [i] becomes the alphabet symbol of index
    [(ci - r) mod n], where [r] is the index of the key symbol at
    position [i mod len(key)]. *)
Theorem vigenere_decrypt_shifts (self : V.t) (key : str) :
  let alpha := alphabet (V.full self) in
  let nkey := normalize (V.full self) key in
  built self →
  Forall (λ c, c ∈ alpha) (V.text self) →
  nkey ≠ [] →
  Forall (λ k, k ∈ alpha) nkey →
  ∃ self', V.decrypt key self = (self', None) ∧
    ∀ i t k ci r,
      V.text self !! i = Some t → nkey !! (i `mod` length nkey)%nat = Some k →
      alpha !! ci = Some t → alpha !! r = Some k →
      V.text self' !! i
        = alpha !! ((ci + (length alpha - r)) `mod` length alpha)%nat.
Proof.
  cbv zeta. intros Hb Hall Hne Hkey.
  destruct (decrypt_ok self key Hb Hall Hne Hkey) as (ekey & He & ->).
  eexists. split; [done|]. intros i t k ci r Ht Hk Hci Hr. simpl.
  rewrite <-(expand_lookup self key ekey i Hne He) in Hk
    by by eapply lookup_lt_Some.
  rewrite lookup_zip_with, Hk, Ht. simpl.
  by rewrite (dec_sym_shift _ k t r ci).
Qed.

Lemma vigenere_decrypt_shifts_witness :
  let self := V.init (lit "LXFOPVEFRNHR") false in
  ∃ self', V.decrypt (lit "Lemon") self = (self', None) ∧
    ∀ i t k ci r,
      V.text self !! i = Some t →
      normalize false (lit "Lemon")
        !! (i `mod` length (normalize false (lit "Lemon")))%nat = Some k →
      alphabet false !! ci = Some t → alphabet false !! r = Some k →
      V.text self' !! i
        = alphabet false
            !! ((ci + (length (alphabet false) - r))
                `mod` length (alphabet false))%nat.
Proof.
  apply (vigenere_decrypt_shifts (V.init (lit "LXFOPVEFRNHR") false)
           (lit "Lemon")).
  - apply built_init.
  - apply (bool_decide_unpack _). vm_compute. exact I.
  - vm_compute. discriminate.
  - apply (bool_decide_unpack _). vm_compute. exact I.
Defined.

Lemma zip_with_dec_alphabet full (ekey s : str) :
  Forall (λ k, k ∈ alphabet full) ekey →
  Forall (λ c, c ∈ alphabet full) s →
  Forall (λ c, c ∈ alphabet full) (zip_with (dec_sym full) ekey s).
Proof.
  intros Hkey. revert s.
  induction Hkey as [|k ekey Hk _ IH]; intros s Hs; [constructor|].
  destruct Hs as [|c s Hc Hs]; constructor.
  - by apply dec_sym_elem.
  - by apply IH.
Qed.

Lemma zip_with_enc_dec full (ekey s : str) :
  Forall (λ k, k ∈ alphabet full) ekey →
  Forall (λ c, c ∈ alphabet full) s → length ekey = length s →
  zip_with (enc_sym full) ekey (zip_with (dec_sym full) ekey s) = s.
Proof.
  intros Hkey. revert s.
  induction Hkey as [|k ekey Hk _ IH]; intros s Hs Hlen.
  - by destruct s.
  - destruct Hs as [|c s Hc Hs]; [done|]. simpl.
    rewrite enc_dec_sym by done. f_equal. apply IH; [done|].
    simpl in Hlen. lia.
Qed.

(** X7.  The round trip the other way: for every text [T] of alphabet
    symbols and every key [K] whose normalization is non-empty and made of
    alphabet symbols, constructing a VigenereCipher from [T], then calling
    [decrypt(K)] followed by [encrypt(K)], raises nothing and leaves the
    held text equal to [T]. *)
Theorem vigenere_decrypt_encrypt (full : bool) (T K : str) :
  Forall (λ c, c ∈ alphabet full) T →
  normalize full K ≠ [] →
  Forall (λ k, k ∈ alphabet full) (normalize full K) →
  ∃ self', and_then (V.decrypt K (V.init T full)) (V.encrypt K) = (self', None)
           ∧ V.text self' = T.
Proof.
  intros HT Hne HK.
  assert (V.text (V.init T full) = T) as Htext.
  { rewrite text_init. by apply normalize_alphabet. }
  pose proof (built_init T full) as Hb.
  destruct (expand_symbols (V.init T full) K (length T))
    as (ekey & He & Hlen & Hsym); [done|].
  assert (Forall (λ k, k ∈ alphabet full) ekey) as Hekey.
  { eapply Forall_impl; [exact Hsym|]. intros k Hk. simpl in Hk.
    by apply (proj1 (Forall_forall _ _) HK). }
  destruct (decrypt_ok (V.init T full) K Hb) as (ekey' & He' & Hdec);
    [by rewrite ?Htext..|].
  rewrite Htext, He in He'. injection He' as <-.
  rewrite Hdec. unfold and_then. rewrite Htext.
  change (V.full (V.init T full)) with full.
  set (self1 := V.set_text (V.init T full) (zip_with (dec_sym full) ekey T)).
  destruct (encrypt_ok self1 K) as (ekey1 & He1 & Henc);
    [done|by apply zip_with_dec_alphabet|done|].
  simpl in He1. rewrite length_zip_with, Hlen, Nat.min_id in He1.
  unfold self1 in He1. rewrite expand_set_text, He in He1.
  injection He1 as <-. rewrite Henc. eexists. split; [done|]. simpl.
  by apply zip_with_enc_dec.
Qed.

Lemma vigenere_decrypt_encrypt_witness :
  ∃ self',
    and_then (V.decrypt (lit "LEMON") (V.init (lit "ATTACKATDAWN") false))
             (V.encrypt (lit "LEMON")) = (self', None)
    ∧ V.text self' = lit "ATTACKATDAWN".
Proof.
  apply (vigenere_decrypt_encrypt false (lit "ATTACKATDAWN") (lit "LEMON")).
  - apply (bool_decide_unpack _). vm_compute. exact I.
  - vm_compute. discriminate.
  - apply (bool_decide_unpack _). vm_compute. exact I.
Defined.

(** X8.  A key symbol that is not in the alphabet (a digit, say) selects
    row 0 in [encrypt]: on a held text of alphabet symbols and a key with
    non-empty normalization, [encrypt] returns and leaves unchanged every
    symbol whose key symbol is outside the alphabet. *)
Theorem vigenere_encrypt_foreign_key (self : V.t) (key : str) :
  let alpha := alphabet (V.full self) in
  let nkey := normalize (V.full self) key in
  built self →
  Forall (λ c, c ∈ alpha) (V.text self) →
  nkey ≠ [] →
  ∃ self', V.encrypt key self = (self', None) ∧
    ∀ i t k,
      V.text self !! i = Some t → nkey !! (i `mod` length nkey)%nat = Some k →
      k ∉ alpha → V.text self' !! i = Some t.
Proof.
  cbv zeta. intros Hb Hall Hne.
  destruct (encrypt_ok self key Hb Hall Hne) as (ekey & He & ->).
  eexists. split; [done|]. intros i t k Ht Hk Hout. simpl.
  rewrite <-(expand_lookup self key ekey i Hne He) in Hk
    by by eapply lookup_lt_Some.
  rewrite lookup_zip_with, Hk, Ht. simpl. f_equal.
  apply enc_sym_absent; [done|].
  by apply (proj1 (Forall_lookup _ _) Hall i).
Qed.

Lemma vigenere_encrypt_foreign_key_witness :
  let self := V.init (lit "Attack") false in
  ∃ self', V.encrypt (lit "L3") self = (self', None) ∧
    ∀ i t k,
      V.text self !! i = Some t →
      normalize false (lit "L3")
        !! (i `mod` length (normalize false (lit "L3")))%nat = Some k →
      k ∉ alphabet false → V.text self' !! i = Some t.
Proof.
  apply (vigenere_encrypt_foreign_key (V.init (lit "Attack") false) (lit "L3")).
  - apply built_init.
  - apply (bool_decide_unpack _). vm_compute. exact I.
  - vm_compute. discriminate.
Defined.

(** ** Symbols outside the alphabet *)

(** A loop raises [e] when one of its turns is bound to, and the turns
    before it either return, keeping what holds of the state, or raise
    [e] themselves. *)
Lemma for_from_raises {A S} (P : S → Prop)
    (body : nat → A → S → result S) i l s e :
  P s →
  (∀ j x s', l !! j = Some x → P s' →
     (∃ s'', body (i + j)%nat x s' = Ok s'' ∧ P s'')
     ∨ body (i + j)%nat x s' = Raise e) →
  (∃ j x, l !! j = Some x ∧ ∀ s', P s' → body (i + j)%nat x s' = Raise e) →
  for_from body i l s = Raise e.
Proof.
  revert i s. induction l as [|x l IH]; intros i s Hs Hturn (j & y & Hj & Hbad).
  - done.
  - simpl. destruct j as [|j].
    + injection Hj as ->. rewrite Nat.add_0_r in Hbad. by rewrite Hbad.
    + destruct (Hturn 0%nat x s eq_refl Hs) as [(s1 & Hs1 & HP)|Hr];
        rewrite Nat.add_0_r in *; [|by rewrite Hr].
      rewrite Hs1. simpl. apply IH; [done| |].
      * intros j' x' s' Hj' Hs'.
        replace (Datatypes.S i + j')%nat with (i + Datatypes.S j')%nat by lia.
        by apply Hturn.
      * exists j, y. split; [done|]. intros s' Hs'.
        replace (Datatypes.S i + j)%nat with (i + Datatypes.S j)%nat by lia.
        by apply Hbad.
Qed.

(** A loop whose turns leave the state alone. *)
Lemma for_from_skip {A S} (body : nat → A → S → result S) i l s :
  (∀ j x, l !! j = Some x → body (i + j)%nat x s = Ok s) →
  for_from body i l s = Ok s.
Proof.
  revert i. induction l as [|x l IH]; intros i Hb; [done|].
  simpl. rewrite <-(Nat.add_0_r i) at 1. rewrite (Hb 0%nat x eq_refl). simpl.
  apply IH. intros j y Hj.
  replace (Datatypes.S i + j)%nat with (i + Datatypes.S j)%nat by lia.
  by apply Hb.
Qed.

Lemma join_replicate_nil (n : nat) : join (replicate n []) = [].
Proof. induction n as [|n IH]; [done|]. exact IH. Qed.

Section foreign_symbols.
Variable self : V.t.
Hypothesis Hbuilt : built self.
Let full := V.full self.

Lemma encrypt_step_foreign key i c res t :
  V.text self !! i = Some t → t ∉ alphabet full →
  V.encrypt_step self key i c res = Raise ValueError.
Proof.
  intros Ht Hout. unfold V.encrypt_step. rewrite Hbuilt. fold full.
  rewrite (getitem_0 _ _ (tabula_row0 full)). simpl.
  rewrite (getitem_lookup _ _ _ Ht). simpl.
  unfold index. by rewrite index_from_not_elem.
Qed.

Lemma decrypt_step_body key i c k :
  key !! i = Some k →
  ∀ (j : nat) (l : list ascii) (s : list (list ascii)) (a : ascii),
    l !! 0%nat = Some a →
    (let! l0 := getitem l 0 in
     let! ki := getitem key (Z.of_nat i) in
     if decide (l0 = ki) then
       let! row0 := getitem (V.table self) 0 in
       let! rowj := getitem (V.table self) (Z.of_nat j) in
       let! k := index rowj c in
       let! x := getitem row0 (Z.of_nat k) in
       setitem s i [x]
     else Ok s)
    = if decide (a = k) then
        (let! row0 := getitem (V.table self) 0 in
         let! rowj := getitem (V.table self) (Z.of_nat j) in
         let! k := index rowj c in
         let! x := getitem row0 (Z.of_nat k) in
         setitem s i [x])
      else Ok s.
Proof.
  intros Hk j l s a Ha.
  rewrite (getitem_0 l a Ha), (getitem_lookup key i k Hk). simpl.
  by case_decide.
Qed.

(** The text symbol is foreign and the key symbol is not. *)
Lemma decrypt_step_foreign key i c res k :
  key !! i = Some k → k ∈ alphabet full → c ∉ alphabet full →
  V.decrypt_step self key i c res = Raise ValueError.
Proof.
  intros Hk Hkin Hout. unfold V.decrypt_step, for_enumerate.
  apply list_elem_of_lookup_1 in Hkin as [r Hr].
  pose proof (tabula_heads full) as Hheads.
  pose proof Hbuilt as Hb. unfold built in Hb. fold full in Hb.
  rewrite <-Hb in Hheads.
  rewrite (row_search_present _ _ k (decrypt_step_body key i c k Hk) _ _ r
             Hheads (NoDup_alphabet full) Hr).
  simpl. rewrite Hb.
  rewrite (getitem_0 _ _ (tabula_row0 full)). simpl.
  destruct (lookup_lt_is_Some_2 (tabula (alphabet full)) r) as [row Hrow].
  { rewrite tabula_length. by eapply lookup_lt_Some. }
  rewrite (getitem_lookup _ _ _ Hrow). simpl.
  destruct (tabula_row_lookup full r row Hrow) as (_ & _ & Hmem).
  unfold index. rewrite index_from_not_elem; [done|].
  intros Hc. by apply Hout, Hmem.
Qed.

(** The key symbol is foreign: no row is selected and nothing is written. *)
Lemma decrypt_step_skipped key i c res k :
  key !! i = Some k → k ∉ alphabet full →
  V.decrypt_step self key i c res = Ok res.
Proof.
  intros Hk Hout. unfold V.decrypt_step, for_enumerate.
  pose proof (tabula_heads full) as Hheads.
  pose proof Hbuilt as Hb. unfold built in Hb. fold full in Hb.
  rewrite <-Hb in Hheads.
  by rewrite (row_search_absent _ _ k (decrypt_step_body key i c k Hk) _ _
                Hheads Hout).
Qed.

End foreign_symbols.

(** X9.  A held text with a symbol outside the alphabet (a digit or an
    underscore, which normalization keeps) cannot be transformed: under a
    key with non-empty normalization [encrypt] raises [ValueError] and
    leaves the object as it was, and so does [decrypt] when the normalized
    key is made of alphabet symbols. *)
Theorem vigenere_foreign_text_raises (self : V.t) (key : str) :
  let alpha := alphabet (V.full self) in
  let nkey := normalize (V.full self) key in
  built self → nkey ≠ [] → ¬ Forall (λ c, c ∈ alpha) (V.text self) →
  V.encrypt key self = (self, Some ValueError) ∧
  (Forall (λ k, k ∈ alpha) nkey →
   V.decrypt key self = (self, Some ValueError)).
Proof.
  cbv zeta. intros Hb Hne Hout.
  destruct (expand_symbols self key (length (V.text self)) Hne)
    as (ekey & He & Hlen & Hsym).
  apply not_Forall_Exists in Hout; [|apply _].
  apply Exists_exists in Hout as (c & Hc & Hcout).
  apply list_elem_of_lookup_1 in Hc as [j Hj].
  assert (∀ i, (i < length (V.text self))%nat → ∃ k, ekey !! i = Some k) as Hk.
  { intros i Hi. apply lookup_lt_is_Some_2. by rewrite Hlen. }
  split.
  - unfold V.encrypt, V.encrypt_text. rewrite He. simpl.
    unfold for_enumerate.
    rewrite (for_from_raises (λ res, length res = length (V.text self))
               _ 0 _ _ ValueError); [done|by rewrite length_replicate| |].
    + intros i t res Hi Hres. simpl.
      destruct (decide (t ∈ alphabet (V.full self))) as [Hin|Hnin].
      * left. destruct (Hk i) as [k Hki]; [by eapply lookup_lt_Some|].
        rewrite (encrypt_step_ok self Hb ekey i t res t k)
          by (done || (rewrite Hres; by eapply lookup_lt_Some)).
        eexists. split; [done|]. by rewrite length_insert.
      * right. by apply (encrypt_step_foreign self Hb ekey i t res t).
    + exists j, c. split; [done|]. intros res _. simpl.
      by apply (encrypt_step_foreign self Hb ekey j c res c).
  - intros Hkey.
    assert (Forall (λ k, k ∈ alphabet (V.full self)) ekey) as Hekey.
    { eapply Forall_impl; [exact Hsym|]. intros k Hkin. simpl in Hkin.
      by apply (proj1 (Forall_forall _ _) Hkey). }
    unfold V.decrypt, V.decrypt_text. rewrite He. simpl.
    unfold for_enumerate.
    rewrite (for_from_raises (λ res, length res = length (V.text self))
               _ 0 _ _ ValueError); [done|by rewrite length_replicate| |].
    + intros i t res Hi Hres. simpl.
      destruct (Hk i) as [k Hki]; [by eapply lookup_lt_Some|].
      pose proof (proj1 (Forall_lookup _ _) Hekey i k Hki) as Hkin.
      destruct (decide (t ∈ alphabet (V.full self))) as [Hin|Hnin].
      * left. rewrite (decrypt_step_ok self Hb ekey i t res k)
          by (done || (rewrite Hres; by eapply lookup_lt_Some)).
        eexists. split; [done|]. by rewrite length_insert.
      * right. by apply (decrypt_step_foreign self Hb ekey i t res k).
    + exists j, c. split; [done|]. intros res _. simpl.
      destruct (Hk j) as [k Hkj]; [by eapply lookup_lt_Some|].
      apply (decrypt_step_foreign self Hb ekey j c res k); [done| |done].
      by apply (proj1 (Forall_lookup _ _) Hekey j k).
Qed.

Lemma vigenere_foreign_text_raises_witness :
  let self := V.init (lit "Hello, World! 123") false in
  V.encrypt (lit "Lemon") self = (self, Some ValueError) ∧
  V.decrypt (lit "Lemon") self = (self, Some ValueError).
Proof.
  destruct (vigenere_foreign_text_raises
              (V.init (lit "Hello, World! 123") false) (lit "Lemon"))
    as [Henc Hdec].
  - apply built_init.
  - vm_compute. discriminate.
  - intros Hall. apply (bool_decide_pack _) in Hall.
    vm_compute in Hall. exact Hall.
  - split; [exact Henc|]. apply Hdec.
    apply (bool_decide_unpack _). vm_compute. exact I.
Defined.

(** X10.  A key with a non-empty normalization that holds no alphabet
    symbol (a key of digits) makes [decrypt] write nothing: whatever the
    held text, [decrypt] returns without error and leaves the held text
    empty. *)
Theorem vigenere_decrypt_foreign_key (self : V.t) (key : str) :
  let alpha := alphabet (V.full self) in
  let nkey := normalize (V.full self) key in
  built self → nkey ≠ [] → Forall (λ k, k ∉ alpha) nkey →
  V.decrypt key self = (V.set_text self [], None).
Proof.
  cbv zeta. intros Hb Hne Hkey.
  destruct (expand_symbols self key (length (V.text self)) Hne)
    as (ekey & He & Hlen & Hsym).
  unfold V.decrypt, V.decrypt_text. rewrite He. simpl.
  unfold for_enumerate. rewrite for_from_skip.
  - simpl. by rewrite join_replicate_nil.
  - intros i c Hi. simpl.
    destruct (lookup_lt_is_Some_2 ekey i) as [k Hk].
    { rewrite Hlen. by eapply lookup_lt_Some. }
    apply (decrypt_step_skipped self Hb ekey i c _ k Hk).
    apply (proj1 (Forall_forall _ _) Hkey).
    apply (proj1 (Forall_lookup _ _) Hsym i k Hk).
Qed.

Lemma vigenere_decrypt_foreign_key_witness :
  V.decrypt (lit "2024") (V.init (lit "Attack at dawn") false)
    = (V.set_text (V.init (lit "Attack at dawn") false) [], None).
Proof.
  apply (vigenere_decrypt_foreign_key (V.init (lit "Attack at dawn") false)
           (lit "2024")).
  - apply built_init.
  - vm_compute. discriminate.
  - apply (bool_decide_unpack _). vm_compute. exact I.
Defined.

(** ** The modular inverse *)






(** ** More on the affine transforms *)

Lemma affine_forward_index a b inv m n :
  0 ≤ n < m → (a * inv) `mod` m = 1 →
  (a * ((inv * (n - b)) `mod` m) + b) `mod` m = n.
Proof.
  intros Hn Hinv.
  pose proof (Z.div_mod (a * inv) m ltac:(lia)) as H1. rewrite Hinv in H1.
  rewrite (Z.mod_eq (inv * (n - b)) m) by lia.
  set (q1 := (a * inv) `div` m) in *. set (q2 := (inv * (n - b)) `div` m).
  replace (a * (inv * (n - b) - m * q2) + b)
    with ((a * inv) * (n - b) - a * m * q2 + b) by lia.
  rewrite H1.
  replace ((m * q1 + 1) * (n - b) - a * m * q2 + b)
    with (n + (q1 * (n - b) - a * q2) * m) by lia.
  rewrite Z.mod_add by lia. apply Z.mod_small. lia.
Qed.

Lemma affine_enc_dec_sym (alpha : str) m a b inv ch :
  NoDup alpha → m = Z.of_nat (length alpha) → (a * inv) `mod` m = 1 →
  ch ∈ alpha →
  affine_enc_sym alpha m a b (affine_dec_sym alpha m inv b ch) = ch.
Proof.
  intros Hnd Hm Hinv Hch.
  apply list_elem_of_lookup_1 in Hch as [n Hn].
  pose proof (lookup_lt_Some _ _ _ Hn) as Hlt.
  unfold affine_dec_sym. rewrite (find_lookup alpha ch n Hnd Hn).
  destruct (getitem_mod alpha m (inv * (Z.of_nat n - b))) as (x & _ & _ & Hx & _);
    [lia|].
  rewrite Hx. simpl. unfold affine_enc_sym.
  rewrite (find_lookup alpha x _ Hnd Hx).
  pose proof (Z.mod_pos_bound (inv * (Z.of_nat n - b)) m ltac:(lia)).
  rewrite Z2Nat.id by lia.
  rewrite affine_forward_index by (done || lia).
  by rewrite Nat2Z.id, Hn.
Qed.

(** X13.  The round trip the other way: for every text [T] of even length
    made of alphabet symbols, modulus [M] equal to the alphabet size,
    multiplier [A] coprime to [M] and any offset [B], constructing a
    BlockAffineCipher from [T], then calling [decrypt(A, B)] followed by
    [encrypt(A, B)], raises nothing and leaves the held text equal to [T]. *)
Theorem affine_decrypt_encrypt (full : bool) (T : str) (M A Bk : Z) :
  Forall (λ c, c ∈ alphabet full) T →
  Z.of_nat (length T) `mod` 2 = 0 →
  M = Z.of_nat (length (alphabet full)) →
  Z.gcd A M = 1 →
  ∃ self', and_then (B.decrypt A Bk (B.init T M full)) (B.encrypt A Bk)
             = (self', None) ∧ B.text self' = T.
Proof.
  intros HT Heven HM Hg.
  destruct (affine_init_fields T M full) as (Halpha & Hmod & _).
  pose proof (affine_init_text T M full HT Heven) as Htext.
  assert (2 ≤ M) as HM2 by (rewrite HM, alphabet_length; destruct full; lia).
  revert Halpha Hmod Htext. generalize (B.init T M full). intros self Ha Hm Ht.
  assert (1 ≤ B.modulo self ≤ Z.of_nat (length (B.alpha self))) as Hrange
    by (rewrite Ha, Hm; lia).
  destruct (get_inverse_coprime A M HM2 Hg) as (inv & Hinv & _ & Hmul).
  rewrite <-Hm in Hinv.
  unfold B.decrypt. rewrite (affine_decrypt_text_ok self Hrange A Bk inv Hinv).
  unfold and_then. set (self1 := B.set_text self _).
  unfold B.encrypt. rewrite (affine_encrypt_text_ok self1 Hrange).
  eexists. split; [done|]. simpl. rewrite Ha, Hm, Ht.
  rewrite <-list_fmap_compose. rewrite <-(list_fmap_id T) at 2.
  apply Forall_fmap_ext_1. eapply Forall_impl; [exact HT|].
  intros ch Hch. simpl. apply affine_enc_dec_sym; [|done..].
  apply NoDup_alphabet.
Qed.

Lemma affine_decrypt_encrypt_witness :
  ∃ self',
    and_then (B.decrypt 3 5 (B.init (lit "LXFOPVEFRNHR") 26 false))
             (B.encrypt 3 5) = (self', None)
    ∧ B.text self' = lit "LXFOPVEFRNHR".
Proof.
  apply (affine_decrypt_encrypt false (lit "LXFOPVEFRNHR") 26 3 5).
  - apply (bool_decide_unpack _). vm_compute. exact I.
  - reflexivity.
  - reflexivity.
  - reflexivity.
Defined.

(** X14.  Two encryptions in a row are one: when the modulus lies between
    1 and the size of the alphabet and the alphabet has no repeated
    symbol, [encrypt(a1, b1)] followed by [encrypt(a2, b2)] leaves the
    object as [encrypt(a2*a1, a2*b1 + b2)] does, whatever the held text. *)
Theorem affine_encrypt_composes (self : B.t) (a1 b1 a2 b2 : Z) :
  NoDup (B.alpha self) →
  1 ≤ B.modulo self ≤ Z.of_nat (length (B.alpha self)) →
  and_then (B.encrypt a1 b1 self) (B.encrypt a2 b2)
    = B.encrypt (a2 * a1) (a2 * b1 + b2) self.
Proof.
  intros Hnd Hm. unfold B.encrypt at 1 3.
  rewrite !(affine_encrypt_text_ok self Hm). unfold and_then.
  set (self1 := B.set_text self _). unfold B.encrypt.
  rewrite (affine_encrypt_text_ok self1 Hm). simpl. unfold B.set_text. simpl.
  do 2 f_equal. rewrite <-list_fmap_compose. apply list_fmap_ext.
  intros _ ch _. simpl. unfold affine_enc_sym at 2.
  destruct (getitem_mod (B.alpha self) (B.modulo self)
              (a1 * find (B.alpha self) ch + b1) Hm) as (x & _ & _ & Hx & _).
  rewrite Hx. simpl. unfold affine_enc_sym.
  rewrite (find_lookup _ x _ Hnd Hx).
  pose proof (Z.mod_pos_bound (a1 * find (B.alpha self) ch + b1)
                (B.modulo self) ltac:(lia)).
  rewrite Z2Nat.id by lia.
  assert ((a2 * ((a1 * find (B.alpha self) ch + b1) `mod` B.modulo self) + b2)
            `mod` B.modulo self
          = (a2 * a1 * find (B.alpha self) ch + (a2 * b1 + b2))
              `mod` B.modulo self) as ->.
  { rewrite <-Z.add_mod_idemp_l, Z.mul_mod_idemp_r, Z.add_mod_idemp_l by lia.
    f_equal. lia. }
  by destruct (getitem_mod (B.alpha self) (B.modulo self)
                 (a2 * a1 * find (B.alpha self) ch + (a2 * b1 + b2)) Hm)
    as (y & _ & _ & -> & _).
Qed.

Lemma affine_encrypt_composes_witness :
  let self := B.init (lit "Hello, World! 123") 26 false in
  and_then (B.encrypt 3 5 self) (B.encrypt 7 (-2))
    = B.encrypt (7 * 3) (7 * 5 + (-2)) self.
Proof.
  apply (affine_encrypt_composes (B.init (lit "Hello, World! 123") 26 false)).
  - apply (bool_decide_unpack _). vm_compute. exact I.
  - vm_compute. split; discriminate.
Defined.

(** X15.  A multiplier that shares a factor with the modulus loses
    information already at encryption: when the modulus equals the size of
    the alphabet and [gcd(a, modulus) ≠ 1], there are two different
    alphabet symbols that [encrypt(a, b)] sends to the same symbol. *)
Theorem affine_encrypt_collides (full : bool) (M a b : Z) :
  M = Z.of_nat (length (alphabet full)) → Z.gcd a M ≠ 1 →
  ∃ c1 c2 s1 s2,
    c1 ≠ c2 ∧ c1 ∈ alphabet full ∧ c2 ∈ alphabet full ∧
    B.encrypt a b (B.init [c1; c1] M full) = (s1, None) ∧
    B.encrypt a b (B.init [c2; c2] M full) = (s2, None) ∧
    B.text (B.init [c1; c1] M full) = [c1; c1] ∧
    B.text (B.init [c2; c2] M full) = [c2; c2] ∧
    B.text s1 = B.text s2.
Proof.
  intros HM Hg.
  assert (2 ≤ M) as HM2 by (rewrite HM, alphabet_length; destruct full; lia).
  pose proof (Z.gcd_nonneg a M) as Hg0.
  destruct (Z.gcd_divide_l a M) as [qa Hqa].
  destruct (Z.gcd_divide_r a M) as [qm Hqm].
  set (g := Z.gcd a M) in *.
  assert (2 ≤ g) as Hg2.
  { destruct (decide (g = 0)) as [Hz|]; [|lia]. rewrite Hz in Hqm. lia. }
  assert (0 < qm < M) as Hqmr by nia.
  destruct (lookup_lt_is_Some_2 (alphabet full) 0) as [c1 Hc1]; [lia|].
  destruct (lookup_lt_is_Some_2 (alphabet full) (Z.to_nat qm)) as [c2 Hc2];
    [lia|].
  assert (c1 ≠ c2) as Hne.
  { intros ->.
    pose proof (NoDup_lookup _ _ _ _ (NoDup_alphabet full) Hc1 Hc2). lia. }
  assert (c1 ∈ alphabet full) as Hin1 by by eapply list_elem_of_lookup_2.
  assert (c2 ∈ alphabet full) as Hin2 by by eapply list_elem_of_lookup_2.
  assert (∀ c, c ∈ alphabet full →
            B.text (B.init [c; c] M full) = [c; c]) as Htext.
  { intros c Hc. apply affine_init_text; [|done]. by repeat constructor. }
  assert (∀ T, 1 ≤ B.modulo (B.init T M full)
               ≤ Z.of_nat (length (B.alpha (B.init T M full)))) as Hrange.
  { intros T. destruct (affine_init_fields T M full) as (-> & -> & _). lia. }
  exists c1, c2. do 2 eexists.
  split; [done|]. split; [done|]. split; [done|].
  unfold B.encrypt. rewrite !affine_encrypt_text_ok by apply Hrange.
  split; [done|]. split; [done|].
  split; [by apply Htext|]. split; [by apply Htext|].
  cbn [B.text B.set_text]. rewrite !Htext by done.
  destruct (affine_init_fields [c1; c1] M full) as (-> & -> & _).
  destruct (affine_init_fields [c2; c2] M full) as (-> & -> & _).
  assert (affine_enc_sym (alphabet full) M a b c1
          = affine_enc_sym (alphabet full) M a b c2) as Hsym;
    [|by rewrite !fmap_cons, Hsym].
  unfold affine_enc_sym.
  rewrite (find_lookup _ c1 _ (NoDup_alphabet full) Hc1).
  rewrite (find_lookup _ c2 _ (NoDup_alphabet full) Hc2).
  rewrite Z2Nat.id by lia.
  assert ((a * qm + b) `mod` M = (a * Z.of_nat 0 + b) `mod` M) as Heq.
  { replace (a * qm + b) with (a * Z.of_nat 0 + b + qa * M) by nia.
    by rewrite Z.mod_add by lia. }
  rewrite Heq.
  destruct (getitem_mod (alphabet full) M (a * Z.of_nat 0 + b))
    as (x & _ & _ & -> & _); [lia|done].
Qed.

Lemma affine_encrypt_collides_witness :
  ∃ c1 c2 s1 s2,
    c1 ≠ c2 ∧ c1 ∈ alphabet false ∧ c2 ∈ alphabet false ∧
    B.encrypt 13 4 (B.init [c1; c1] 26 false) = (s1, None) ∧
    B.encrypt 13 4 (B.init [c2; c2] 26 false) = (s2, None) ∧
    B.text (B.init [c1; c1] 26 false) = [c1; c1] ∧
    B.text (B.init [c2; c2] 26 false) = [c2; c2] ∧
    B.text s1 = B.text s2.
Proof.
  apply (affine_encrypt_collides false 26 13 4); [reflexivity|].
  vm_compute. discriminate.
Defined.

(** ** Files: saving and reading back *)

Lemma saved_denied fs filename content :
  Os.denied (saved fs filename content) = Os.denied fs.
Proof. unfold saved, Os.write. by case_decide. Qed.

Lemma saved_lookup fs filename content :
  filename ∉ Os.denied fs →
  Os.files (saved fs filename content) !! filename = Some content.
Proof.
  intros Hok. unfold saved, Os.write. rewrite decide_False by done.
  simpl. apply lookup_insert_eq.
Qed.

Lemma saved_lookup_ne fs filename content other :
  other ≠ filename →
  Os.files (saved fs filename content) !! other = Os.files fs !! other.
Proof.
  intros Hne. unfold saved, Os.write. case_decide; [done|].
  simpl. by apply lookup_insert_ne.
Qed.


Lemma vigenere_save_eq self filename fs :
  V.save self filename fs
    = (saved fs filename (V.text self),
       Os.Done (bool_decide (filename ∉ Os.denied fs))).
Proof.
  unfold V.save, saved, Os.write. case_decide.
  - by rewrite bool_decide_eq_false_2 by naive_solver.
  - by rewrite bool_decide_eq_true_2.
Qed.

Lemma affine_save_eq self filename fs :
  B.save self filename fs
    = (saved fs filename (B.text self),
       Os.Done (bool_decide (filename ∉ Os.denied fs))).
Proof.
  unfold B.save, saved, Os.write. case_decide.
  - by rewrite bool_decide_eq_false_2 by naive_solver.
  - by rewrite bool_decide_eq_true_2.
Qed.

Lemma vigenere_from_file_eq filename full fs content :
  Os.files fs !! filename = Some content →
  V.from_file filename full fs = (fs, Os.Done (V.init content full)).
Proof. intros Hf. unfold V.from_file, Os.read. by rewrite Hf. Qed.





(** ** The program *)

Lemma bind_done {A B} (m : Os.prog A) (k : A → Os.prog B) fs fs' a :
  m fs = (fs', Os.Done a) → Os.bind m k fs = k a fs'.
Proof. intros Hm. unfold Os.bind. by rewrite Hm. Qed.

Lemma bind_failed {A B} (m : Os.prog A) (k : A → Os.prog B) fs fs' f :
  m fs = (fs', Os.Failed f) → Os.bind m k fs = (fs', Os.Failed f).
Proof. intros Hm. unfold Os.bind. by rewrite Hm. Qed.

Lemma call_returned {S} (o : S * option exn) (s : S) fs :
  o = (s, None) → Os.call o fs = (fs, Os.Done s).
Proof. by intros ->. Qed.

Lemma call_raised {S} (o : S * option exn) (s : S) e fs :
  o = (s, Some e) → Os.call o fs = (fs, Os.Failed (Os.Uncaught e)).
Proof. by intros ->. Qed.

Lemma read_prog_eq filename fs content :
  Os.files fs !! filename = Some content →
  Os.read_prog filename fs = (fs, Os.Done content).
Proof. intros Hf. unfold Os.read_prog, Os.read. by rewrite Hf. Qed.

(** A longer expansion of the same key begins with the shorter one. *)
Lemma expand_prefix self1 self2 key ekey1 ekey2 :
  V.full self1 = V.full self2 →
  normalize (V.full self1) key ≠ [] →
  V.expand self1 key (Z.of_nat (length (V.text self1))) = Ok ekey1 →
  V.expand self2 key (Z.of_nat (length (V.text self2))) = Ok ekey2 →
  (length (V.text self1) ≤ length (V.text self2))%nat →
  take (length (V.text self1)) ekey2 = ekey1.
Proof.
  intros Hfull Hne He1 He2 Hle.
  destruct (expand_symbols self1 key (length (V.text self1)) Hne)
    as (e1 & He1' & Hlen1 & _).
  rewrite He1 in He1'. injection He1' as <-.
  apply list_eq. intros i.
  destruct (decide (i < length (V.text self1))%nat) as [Hi|Hi].
  - rewrite lookup_take_lt by done.
    rewrite (expand_lookup self1 key ekey1 i Hne He1 Hi).
    rewrite (expand_lookup self2 key ekey2 i) by (done || congruence || lia).
    by rewrite Hfull.
  - rewrite lookup_take_ge by lia. symmetry. apply lookup_ge_None. lia.
Qed.

Lemma modulus_of_mode (full : bool) :
  (if full then 52 else 26) = Z.of_nat (length (alphabet full)).
Proof. by destruct full. Qed.

Lemma A_in_alphabet full : Forall (λ c, c ∈ alphabet full) (lit "A").
Proof. destruct full; apply (bool_decide_unpack _); by vm_compute. Qed.

(** X18.  The program restores the plaintext, up to padding.  When both
    input files exist, the normalized plaintext [P] is made of alphabet
    symbols, the normalized key is non-empty and made of alphabet symbols,
    and the multiplier is coprime to the modulus of the chosen alphabet,
    the program ends without error, whether or not its output files can
    be written; and the last file it writes holds [P] when [P] has even
    length, and [P] followed by one more symbol when [P] has odd length:
    the decryption of the "A" that the block affine cipher padded with. *)
Theorem main_round_trip (full : bool) (keya keyb : Z) (fs : Os.filesystem)
    (raw rawkey : str) :
  let P := normalize full raw in
  let K := normalize full rawkey in
  Os.files fs !! text = Some raw →
  Os.files fs !! vkey = Some rawkey →
  Forall (λ c, c ∈ alphabet full) P →
  K ≠ [] →
  Forall (λ k, k ∈ alphabet full) K →
  Z.gcd keya (if full then 52 else 26) = 1 →
  ∃ fs' extra,
    main full keya keyb fs = (fs', Os.Done tt) ∧
    Os.denied fs' = Os.denied fs ∧
    length extra = (if Nat.even (length P) then 0 else 1)%nat ∧
    (vout_dec ∉ Os.denied fs →
     Os.files fs' !! vout_dec = Some (P ++ extra)).
Proof.
  cbv zeta. intros Htf Hkf HP HKne HK Hg.
  remember (main full keya keyb fs) as res eqn:Hres. unfold main in Hres.
  rewrite (bind_done _ _ _ _ _ (read_prog_eq vkey fs rawkey Hkf)) in Hres.
  rewrite (bind_done _ _ _ _ _ (vigenere_from_file_eq text full fs raw Htf))
    in Hres.
  (* Vigenere encryption *)
  destruct (encrypt_ok (V.init raw full) rawkey (built_init raw full))
    as (ekey & He & Henc); [done..|].
  rewrite (bind_done _ _ _ _ _ (call_returned _ _ fs Henc)) in Hres.
  rewrite (bind_done _ _ _ _ _ (vigenere_save_eq _ vout_enc fs)) in Hres.
  destruct (expand_symbols (V.init raw full) rawkey
              (length (normalize full raw)) HKne) as (ekey' & He' & Hlen & _).
  change (V.text (V.init raw full)) with (normalize full raw) in *.
  change (V.full (V.init raw full)) with full in *.
  rewrite He in He'. injection He' as <-.
  set (P := normalize full raw) in *.
  set (E := zip_with (enc_sym full) ekey P) in *.
  assert (Forall (λ c, c ∈ alphabet full) E) as HE
    by by apply zip_with_enc_alphabet.
  assert (length E = length P) as HlenE
    by (unfold E; rewrite length_zip_with; lia).
  (* the block affine round trip *)
  change (V.__str__ (V.set_text (V.init raw full) E)) with E in Hres.
  set (M := if full then 52 else 26) in *.
  set (b0 := B.from_string E M full) in *.
  set (tail := if Nat.even (length E) then [] else lit "A").
  assert (Forall (λ c, c ∈ alphabet full) (E ++ tail)) as HEt.
  { apply Forall_app. split; [done|]. unfold tail.
    destruct (Nat.even _); [constructor|apply A_in_alphabet]. }
  assert (B.text b0 = E ++ tail) as Hb0.
  { destruct (affine_init_text_pad E M full) as [Ht _].
    by rewrite (normalize_alphabet full E HE) in Ht. }
  destruct (affine_init_fields E M full) as (Halpha & Hmod & _).
  change (B.init E M full) with b0 in Halpha, Hmod.
  destruct (affine_round_trip_held b0 keya keyb) as (b2 & Hrun & Hb2).
  { rewrite Halpha. apply NoDup_alphabet. }
  { rewrite Halpha, Hmod. apply modulus_of_mode. }
  { rewrite Hmod. unfold M. destruct full; lia. }
  { by rewrite Hmod. }
  { by rewrite Halpha, Hb0. }
  destruct (B.encrypt keya keyb b0) as [b1 [e|]] eqn:Hb1; [done|].
  unfold and_then in Hrun.
  rewrite (bind_done _ _ _ _ _ (call_returned _ _ _ eq_refl)) in Hres.
  rewrite (bind_done _ _ _ _ _ (affine_save_eq _ bout_enc _)) in Hres.
  rewrite (bind_done _ _ _ _ _ (call_returned _ _ _ Hrun)) in Hres.
  rewrite (bind_done _ _ _ _ _ (affine_save_eq _ bout_dec _)) in Hres.
  (* Vigenere decryption *)
  change (B.__str__ b2) with (B.text b2) in Hres. rewrite Hb2, Hb0 in Hres.
  set (v2 := V.from_string (E ++ tail) full) in *.
  assert (V.text v2 = E ++ tail) as Hv2.
  { unfold v2, V.from_string. rewrite text_init.
    by apply normalize_alphabet. }
  destruct (decrypt_ok v2 rawkey (built_init (E ++ tail) full))
    as (ekey2 & He2 & Hdec); [by rewrite Hv2|done..|].
  change (V.full v2) with full in *.
  rewrite (bind_done _ _ _ _ _ (call_returned _ _ _ Hdec)) in Hres.
  rewrite (bind_done _ _ _ _ _ (vigenere_save_eq _ vout_dec _)) in Hres.
  unfold Os.ret in Hres.
  change (V.text (V.set_text v2 ?t)) with t in Hres. subst res.
  (* what was written last *)
  destruct (expand_symbols v2 rawkey (length (V.text v2)) HKne)
    as (ekey2' & He2' & Hlen2 & _).
  rewrite He2 in He2'. injection He2' as <-.
  assert (take (length P) ekey2 = ekey) as Hprefix.
  { apply (expand_prefix (V.init raw full) v2 rawkey ekey ekey2);
      [done..|]. change (V.text (V.init raw full)) with P.
    rewrite Hv2, length_app. lia. }
  assert (zip_with (dec_sym full) ekey2 (V.text v2)
          = P ++ zip_with (dec_sym full) (drop (length P) ekey2) tail) as Hout.
  { rewrite Hv2. rewrite <-(take_drop (length P) ekey2) at 1.
    rewrite zip_with_app by (rewrite Hprefix; lia).
    rewrite Hprefix. f_equal. by apply zip_with_dec_enc. }
  rewrite Hout.
  eexists. exists (zip_with (dec_sym full) (drop (length P) ekey2) tail).
  split; [done|]. split; [by rewrite !saved_denied|]. split.
  - rewrite length_zip_with, length_drop, Hlen2, Hv2, length_app, HlenE.
    unfold tail. rewrite HlenE. by destruct (Nat.even (length P)); simpl; lia.
  - intros Hok. apply saved_lookup. by rewrite !saved_denied.
Qed.

Lemma main_round_trip_witness :
  let fs := {| Os.files := {[ text := lit "Hello, World!";
                              vkey := lit "Lemon" ]};
               Os.denied := {[ bout_enc ]} |} in
  ∃ fs' extra,
    main false 3 5 fs = (fs', Os.Done tt) ∧
    Os.denied fs' = Os.denied fs ∧
    length extra = 0%nat ∧
    Os.files fs' !! vout_dec = Some (lit "HELLOWORLD" ++ extra).
Proof.
  destruct (main_round_trip false 3 5
              {| Os.files := {[ text := lit "Hello, World!";
                                vkey := lit "Lemon" ]};
                 Os.denied := {[ bout_enc ]} |}
              (lit "Hello, World!") (lit "Lemon"))
    as (fs' & extra & Hrun & Hden & Hlen & Hout).
  - by vm_compute.
  - by vm_compute.
  - apply (bool_decide_unpack _). vm_compute. exact I.
  - vm_compute. discriminate.
  - apply (bool_decide_unpack _). vm_compute. exact I.
  - reflexivity.
  - exists fs', extra. split; [exact Hrun|]. split; [exact Hden|].
    split; [exact Hlen|]. apply Hout.
    vm_compute. intros H. by apply (bool_decide_pack _) in H.
Defined.

(** X19.  A missing input file stops the program at once: when the key
    file is missing, or the key file is there and the plaintext file is
    missing, the program fails with the [IOError] of that file and writes
    nothing. *)
Theorem main_missing_input (full : bool) (keya keyb : Z) (fs : Os.filesystem) :
  (Os.files fs !! vkey = None →
   main full keya keyb fs = (fs, Os.Failed (Os.IOError vkey))) ∧
  (is_Some (Os.files fs !! vkey) → Os.files fs !! text = None →
   main full keya keyb fs = (fs, Os.Failed (Os.IOError text))).
Proof.
  split.
  - intros Hk. unfold main. apply bind_failed.
    unfold Os.read_prog, Os.read. by rewrite Hk.
  - intros [rawkey Hk] Ht. unfold main.
    rewrite (bind_done _ _ _ _ _ (read_prog_eq vkey fs rawkey Hk)).
    apply bind_failed. unfold V.from_file, Os.read. by rewrite Ht.
Qed.

Lemma main_missing_input_witness :
  let no_key := {| Os.files := {[ text := lit "Hello" ]}; Os.denied := ∅ |} in
  let no_text := {| Os.files := {[ vkey := lit "Lemon" ]}; Os.denied := ∅ |} in
  main false 3 5 no_key = (no_key, Os.Failed (Os.IOError vkey)) ∧
  main false 3 5 no_text = (no_text, Os.Failed (Os.IOError text)).
Proof.
  split.
  - apply (main_missing_input false 3 5
             {| Os.files := {[ text := lit "Hello" ]}; Os.denied := ∅ |}).
    by vm_compute.
  - apply (main_missing_input false 3 5
             {| Os.files := {[ vkey := lit "Lemon" ]}; Os.denied := ∅ |}).
    + eexists. by vm_compute.
    + by vm_compute.
Defined.

(** X20.  A multiplier that shares a factor with the modulus is found out
    only at decryption: when the inputs are as for the round trip, the
    normalized plaintext is not empty and [gcd(keya, modulus) ≠ 1], the
    program fails with the uncaught exception of [get_inverse], after it
    has written the two ciphertext files (where it could) and before it
    writes any of the two decrypted files. *)
Theorem main_not_coprime (full : bool) (keya keyb : Z) (fs : Os.filesystem)
    (raw rawkey : str) :
  let P := normalize full raw in
  let K := normalize full rawkey in
  Os.files fs !! text = Some raw →
  Os.files fs !! vkey = Some rawkey →
  Forall (λ c, c ∈ alphabet full) P → P ≠ [] →
  K ≠ [] →
  Z.gcd keya (if full then 52 else 26) ≠ 1 →
  ∃ fs' E F,
    main full keya keyb fs = (fs', Os.Failed (Os.Uncaught B.no_inverse)) ∧
    fs' = saved (saved fs vout_enc E) bout_enc F ∧
    length E = length P ∧
    Os.files fs' !! bout_dec = Os.files fs !! bout_dec ∧
    Os.files fs' !! vout_dec = Os.files fs !! vout_dec.
Proof.
  cbv zeta. intros Htf Hkf HP HPne HKne Hg.
  remember (main full keya keyb fs) as res eqn:Hres. unfold main in Hres.
  rewrite (bind_done _ _ _ _ _ (read_prog_eq vkey fs rawkey Hkf)) in Hres.
  rewrite (bind_done _ _ _ _ _ (vigenere_from_file_eq text full fs raw Htf))
    in Hres.
  destruct (encrypt_ok (V.init raw full) rawkey (built_init raw full))
    as (ekey & He & Henc); [done..|].
  rewrite (bind_done _ _ _ _ _ (call_returned _ _ fs Henc)) in Hres.
  rewrite (bind_done _ _ _ _ _ (vigenere_save_eq _ vout_enc fs)) in Hres.
  destruct (expand_symbols (V.init raw full) rawkey
              (length (normalize full raw)) HKne) as (ekey' & He' & Hlen & _).
  change (V.text (V.init raw full)) with (normalize full raw) in *.
  change (V.full (V.init raw full)) with full in *.
  rewrite He in He'. injection He' as <-.
  set (P := normalize full raw) in *.
  set (E := zip_with (enc_sym full) ekey P) in *.
  assert (length E = length P) as HlenE
    by (unfold E; rewrite length_zip_with; lia).
  change (V.__str__ (V.set_text (V.init raw full) E)) with E in Hres.
  change (V.text (V.set_text (V.init raw full) E)) with E in Hres.
  set (M := if full then 52 else 26) in *.
  set (b0 := B.from_string E M full) in *.
  destruct (affine_init_fields E M full) as (Halpha & Hmod & _).
  change (B.init E M full) with b0 in Halpha, Hmod.
  assert (1 ≤ B.modulo b0 ≤ Z.of_nat (length (B.alpha b0))) as Hrange.
  { rewrite Halpha, Hmod. unfold M. destruct full; simpl; lia. }
  assert (B.text b0 ≠ []) as Hb0.
  { destruct (affine_init_text_pad E M full) as [Ht _].
    change (B.init E M full) with b0 in Ht. rewrite Ht.
    rewrite (normalize_alphabet full E)
      by by apply zip_with_enc_alphabet.
    intros Hnil. apply app_nil in Hnil as [Hnil _].
    apply (f_equal length) in Hnil. rewrite HlenE in Hnil.
    by destruct P. }
  pose proof (affine_encrypt_text_ok b0 Hrange keya keyb) as Henc0.
  assert (B.encrypt keya keyb b0
          = (B.set_text b0 (affine_enc_sym (B.alpha b0) (B.modulo b0) keya keyb
                              <$> B.text b0), None)) as Hb1.
  { unfold B.encrypt. by rewrite Henc0. }
  set (b1 := B.set_text b0 _) in *.
  rewrite (bind_done _ _ _ _ _ (call_returned _ _ _ Hb1)) in Hres.
  rewrite (bind_done _ _ _ _ _ (affine_save_eq _ bout_enc _)) in Hres.
  assert (B.decrypt keya keyb b1 = (b1, Some B.no_inverse)) as Hdec.
  { apply affine_decrypt_raise.
    - apply get_inverse_not_coprime.
      + change (B.modulo b1) with (B.modulo b0). lia.
      + change (B.modulo b1) with (B.modulo b0). by rewrite Hmod.
    - unfold b1. simpl. intros Hnil. apply fmap_nil_inv in Hnil. done. }
  rewrite (bind_failed _ _ _ _ _ (call_raised _ _ _ _ Hdec)) in Hres.
  subst res. exists (saved (saved fs vout_enc E) bout_enc (B.text b1)).
  exists E, (B.text b1). split; [done|]. split; [done|]. split; [done|].
  by rewrite !saved_lookup_ne by done.
Qed.

Lemma main_not_coprime_witness :
  let fs := {| Os.files := {[ text := lit "Hello, World!";
                              vkey := lit "Lemon" ]};
               Os.denied := ∅ |} in
  ∃ fs' E F,
    main false 13 5 fs = (fs', Os.Failed (Os.Uncaught B.no_inverse)) ∧
    fs' = saved (saved fs vout_enc E) bout_enc F ∧
    length E = length (normalize false (lit "Hello, World!")) ∧
    Os.files fs' !! bout_dec = Os.files fs !! bout_dec ∧
    Os.files fs' !! vout_dec = Os.files fs !! vout_dec.
Proof.
  apply (main_not_coprime false 13 5
           {| Os.files := {[ text := lit "Hello, World!";
                             vkey := lit "Lemon" ]};
              Os.denied := ∅ |}
           (lit "Hello, World!") (lit "Lemon")).
  - by vm_compute.
  - by vm_compute.
  - apply (bool_decide_unpack _). vm_compute. exact I.
  - vm_compute. discriminate.
  - vm_compute. discriminate.
  - vm_compute. discriminate.
Defined.
